(** * The Atomic Blog: the post store of [PostContext.js]

    The three source files ([PostContext.js], [App-v1.js] and the memoized,
    prop-drilled [App]) carry the same post store: a [posts] state, a
    [searchQuery] state, the derived [searchedPosts], the handlers
    [handleAddPost] and [handleClearPosts], and the form component
    [FormAddPost].  The definitions below follow [PostContext.js]; where a
    variant differs it is said so next to the definition. *)

From Stdlib Require Import Ascii NArith.
From stdpp Require Import base list strings pretty.

(** ** JavaScript strings

    A JavaScript string is modelled by the list of its code points, each a
    number: the strings covered are the well-formed ones, in which every
    surrogate is half of a pair, as is every text typed into an input.  A
    string is empty, [length] 0, exactly when the list is.  A literal of
    this file is a string of ASCII characters, turned into its code points
    by [js]. *)
Definition JsString : Type := list N.

Definition js (s : string) : JsString :=
  N_of_ascii <$> String.list_ascii_of_string s.
Coercion js : string >-> JsString.

(** How a code point counts when the neighbours of a capital sigma are
    looked at: as a cased letter, as a character that is skipped, or as
    neither. *)
Inductive CaseContext : Type := Cased | CaseIgnorable | NoCase.

(** The Unicode character data behind [String.prototype.toLowerCase].  The
    rows for U+0000 .. U+00FF, for the Greek letters U+0391 .. U+03C9 and
    for U+0130 are written out in [Js]; the rows of every other code point
    are not part of the repository and are taken as given: its simple
    lower-case mapping, and its class around a sigma. *)
Class UnicodeData : Type := {
  Simple_Lowercase_Mapping : N → N;
  Case_Context : N → CaseContext
}.

(** Rows that leave every other code point as it is and count it as
    neither cased nor skipped.  They serve for the examples, none of which
    has a code point outside the rows written out in [Js], so that any
    other rows give the same. *)
Definition rows_left_alone : UnicodeData :=
  {| Simple_Lowercase_Mapping := λ c, c; Case_Context := λ _, NoCase |}.

(** ** The JavaScript string built-ins the code calls *)
Module Js.

Section Lowering.

Context `{Unicode : UnicodeData}.

(** The lower-case mapping of one code point.  A .. Z (65 .. 90) and the
    capitals U+00C0 .. U+00DE without the multiplication sign U+00D7 (215)
    go 32 further, as do the Greek capitals U+0391 .. U+03AB (913 .. 939,
    where U+03A2, 930, is not a character); the other code points up to
    U+00FF and the Greek small letters up to U+03C9 (969) stay. *)
Definition lowercaseMapping (c : N) : N :=
  if ((65 <=? c) && (c <=? 90))%N then (c + 32)%N
  else if (c <? 192)%N then c
  else if (c <=? 222)%N then (if (c =? 215)%N then c else (c + 32)%N)
  else if (c <=? 255)%N then c
  else if ((913 <=? c) && (c <=? 939))%N
       then (if (c =? 930)%N then c else (c + 32)%N)
  else if ((940 <=? c) && (c <=? 969))%N then c
  else Simple_Lowercase_Mapping c.

(** The class of one code point around a sigma.  Up to U+00FF the cased
    letters are A .. Z, a .. z, U+00AA, U+00B5, U+00BA and U+00C0 .. U+00FF
    without U+00D7 and U+00F7; the skipped characters are the apostrophe,
    full stop, colon, circumflex and grave accent (39, 46, 58, 94, 96) and
    U+00A8, U+00AD, U+00AF, U+00B4, U+00B7, U+00B8.  The Greek letters
    U+0391 .. U+03C9 and U+0130 are cased. *)
Definition caseContext (c : N) : CaseContext :=
  if (c <? 256)%N then
    if (((65 <=? c) && (c <=? 90)) || ((97 <=? c) && (c <=? 122))
        || (c =? 170) || (c =? 181) || (c =? 186)
        || ((192 <=? c) && negb (c =? 215) && negb (c =? 247)))%N
    then Cased
    else if ((c =? 39) || (c =? 46) || (c =? 58) || (c =? 94) || (c =? 96)
             || (c =? 168) || (c =? 173) || (c =? 175) || (c =? 180)
             || (c =? 183) || (c =? 184))%N
    then CaseIgnorable
    else NoCase
  else if (c =? 304)%N then Cased
  else if ((913 <=? c) && (c <=? 969))%N
       then (if (c =? 930)%N then NoCase else Cased)
  else Case_Context c.

(** Is there a cased letter next to the sigma on this side, skipped
    characters apart?  [side] lists the code points on that side, the
    nearest first. *)
Fixpoint casedLetterNext (side : list N) : bool :=
  match side with
  | [] => false
  | c :: side' =>
      match caseContext c with
      | Cased => true
      | CaseIgnorable => casedLetterNext side'
      | NoCase => false
      end
  end.

(** The condition Final_Sigma: a cased letter before, none after. *)
Definition finalSigma (before after : list N) : bool :=
  casedLetterNext before && negb (casedLetterNext after).

(** The lower case of the code point [c] in its context.  U+0130 (304)
    becomes the two code points U+0069 U+0307; the capital sigma U+03A3
    (931) becomes the final sigma U+03C2 (962) at the end of a word and the
    sigma U+03C3 (963) elsewhere; every other code point has its lower-case
    mapping. *)
Definition toLowerCasePoint (before : list N) (c : N) (after : list N)
  : list N :=
  if (c =? 304)%N then [105; 775]%N
  else if (c =? 931)%N
       then [if finalSigma before after then 962%N else 963%N]
  else [lowercaseMapping c].

(** [before] holds the code points already passed, the last one first. *)
Fixpoint toLowerCaseFrom (before : list N) (s : JsString) : JsString :=
  match s with
  | [] => []
  | c :: after =>
      toLowerCasePoint before c after ++ toLowerCaseFrom (c :: before) after
  end.

(** [s.toLowerCase()] *)
Definition toLowerCase (s : JsString) : JsString := toLowerCaseFrom [] s.

End Lowering.

(** Does [q] occur in [s] at position 0? *)
Fixpoint occursAtStart (q s : JsString) : bool :=
  match q, s with
  | [], _ => true
  | _ :: _, [] => false
  | a :: q', b :: s' =>
      if decide (a = b) then occursAtStart q' s' else false
  end.

(** [s.includes(q)]: [q] occurs in [s] at some position, first to last.
    In well-formed strings a stretch of code units that is a well-formed
    string is a stretch of code points, so the search is the same on the
    list of code points. *)
Fixpoint includes (s q : JsString) : bool :=
  occursAtStart q s
  || match s with
     | [] => false
     | _ :: s' => includes s' q
     end.

(** [ToBoolean] of a string, the test behind [!s]: only the empty string
    is falsy. *)
Definition toBoolean (s : JsString) : bool :=
  match s with
  | [] => false
  | _ :: _ => true
  end.

(** The text a template literal or a string [+] puts in for a property
    read: the string itself, or [undefined] spelled out when the object
    has no such property. *)
Definition toString (v : option JsString) : JsString :=
  match v with
  | Some s => s
  | None => js "undefined"
  end.

End Js.

(** ** Data model *)

(** A post object.  Both properties hold strings in every post the program
    creates ([createRandomPost], the form); [None] is a property the object
    does not have, which reads as [undefined]. *)
Record Post := mkPost { title : option JsString; body : option JsString }.

Global Instance Post_eq_dec : EqDecision Post.
Proof. solve_decision. Defined.

(** A post with both properties, [{ title, body }]. *)
Definition post_of (t b : JsString) : Post :=
  {| title := Some t; body := Some b |}.

(** A post that lacks a title or a body, or has an empty one. *)
Definition malformed (p : Post) : Prop :=
  title p = None ∨ title p = Some (js "")
  ∨ body p = None ∨ body p = Some (js "").

(** The two [useState] cells of [PostProvider] (of [App] in the variants,
    which keep a third, [isFakeDark], that none of the handlers below
    reads or writes). *)
Record Store := mkStore { posts : list Post; searchQuery : JsString }.

(** The argument of a [useState] setter: the next value, or an updater
    function applied to the previous value. *)
Inductive SetStateAction (A : Type) : Type :=
| NextValue (v : A)
| Updater (f : A → A).
Arguments NextValue {A} v.
Arguments Updater {A} f.

Definition applyAction {A} (a : SetStateAction A) (prev : A) : A :=
  match a with
  | NextValue v => v
  | Updater f => f prev
  end.

Definition setPosts (a : SetStateAction (list Post)) (st : Store) : Store :=
  {| posts := applyAction a (posts st); searchQuery := searchQuery st |}.

Definition setSearchQuery (a : SetStateAction JsString) (st : Store)
  : Store :=
  {| posts := posts st; searchQuery := applyAction a (searchQuery st) |}.

(** ** The derived state and the handlers *)

Section Search.

Context `{Unicode : UnicodeData}.

(** [searchedPosts], lines 23-30 of [PostContext.js]. *)
Definition searchedPosts (posts : list Post) (searchQuery : JsString)
  : list Post :=
  if decide (0 < length searchQuery)
  then filter
         (λ post : Post,
            Is_true
              (Js.includes
                 (Js.toLowerCase
                    (Js.toString (title post) ++ js " "
                       ++ Js.toString (body post)))
                 (Js.toLowerCase searchQuery)))
         posts
  else posts.

End Search.

(** [handleAddPost]: [setPosts((posts) => [post, ...posts])].  The memoized
    variant wraps the same function in [useCallback] with no dependency. *)
Definition handleAddPost (post : Post) : Store → Store :=
  setPosts (Updater (λ posts, post :: posts)).

(** [handleClearPosts]: [setPosts([])]. *)
Definition handleClearPosts : Store → Store :=
  setPosts (NextValue []).

(** The [onChange] of [SearchPosts]: [setSearchQuery(e.target.value)]. *)
Definition SearchPosts_onChange (value : JsString) : Store → Store :=
  setSearchQuery (NextValue value).

(** ** Store creation

    [faker] is an external random generator.  It is modelled as three
    functions that draw a string and pass the generator on; nothing is
    assumed about what they return. *)
Section Faker.

Variable Rng : Type.
Variables faker_hacker_adjective faker_hacker_noun faker_hacker_phrase
  : Rng → JsString * Rng.

(** [createRandomPost]: the title is drawn first (adjective, then noun),
    the body after it. *)
Definition createRandomPost (rng : Rng) : Post * Rng :=
  let '(adjective, rng1) := faker_hacker_adjective rng in
  let '(noun, rng2) := faker_hacker_noun rng1 in
  let '(phrase, rng3) := faker_hacker_phrase rng2 in
  (post_of (adjective ++ js " " ++ noun) phrase, rng3).

(** [Array.from({ length }, mapFn)]: [mapFn] is called [length] times, for
    the indices 0, 1, ... in turn. *)
Fixpoint Array_from {A} (length : nat) (mapFn : Rng → A * Rng) (rng : Rng)
  : list A * Rng :=
  match length with
  | 0 => ([], rng)
  | S length' =>
      let '(x, rng1) := mapFn rng in
      let '(xs, rng2) := Array_from length' mapFn rng1 in
      (x :: xs, rng2)
  end.

(** [useState(initializer)]: the initializer runs when the cell holds nothing
    yet (the initial render); on every later render the cell's value is
    returned and the initializer is not called. *)
Definition useState {A} (initializer : Rng → A * Rng) (cell : option A)
    (rng : Rng) : A * Rng :=
  match cell with
  | Some v => (v, rng)
  | None => initializer rng
  end.

(** The two [useState] calls at the head of [PostProvider] (lines 16-20).
    [prev] is the state the component instance holds: [None] at the initial
    render. *)
Definition PostProvider_state (prev : option Store) (rng : Rng)
  : Store * Rng :=
  let '(posts0, rng1) :=
    useState (Array_from 30 createRandomPost) (posts <$> prev) rng in
  let '(searchQuery0, rng2) :=
    useState (λ r, (js "", r)) (searchQuery <$> prev) rng1 in
  ({| posts := posts0; searchQuery := searchQuery0 |}, rng2).

(** The successive results of [n] calls of [createRandomPost]. *)
Fixpoint generated (n : nat) (rng : Rng) : list Post :=
  match n with
  | 0 => []
  | S n' => (createRandomPost rng).1 :: generated n' (createRandomPost rng).2
  end.

End Faker.

(** ** The context *)

(** The object [PostProvider] passes as [value]. *)
Record ContextValue := mkContextValue {
  ctx_posts : list Post;
  onAddPost : Post → Store → Store;
  onClearPosts : Store → Store;
  ctx_searchQuery : JsString;
  ctx_setSearchQuery : SetStateAction JsString → Store → Store
}.

Section Provider.

Context `{Unicode : UnicodeData}.

Definition PostProvider_value (st : Store) : ContextValue :=
  {| ctx_posts := searchedPosts (posts st) (searchQuery st);
     onAddPost := handleAddPost;
     onClearPosts := handleClearPosts;
     ctx_searchQuery := searchQuery st;
     ctx_setSearchQuery := setSearchQuery |}.

End Provider.

(** How a call completes. *)
Record Error := mkError { message : string }.

Inductive Completion (A : Type) : Type :=
| Return (v : A)
| Throw (e : Error).
Arguments Return {A} v.
Arguments Throw {A} e.

(** [createContext()] is called with no default value, so the default is
    [undefined], here [None]. *)
Definition PostContext_default : option ContextValue := None.

(** [useContext(PostContext)]: the value of the nearest enclosing
    [PostContext.Provider], or the default when there is none.  [providers]
    lists the values of the enclosing providers, nearest first; every one of
    them is an object, since [PostProvider] is the only provider. *)
Definition useContext (default : option ContextValue)
    (providers : list ContextValue) : option ContextValue :=
  match providers with
  | value :: _ => Some value
  | [] => default
  end.

(** [usePosts], lines 61-67. *)
Definition usePosts (providers : list ContextValue)
  : Completion ContextValue :=
  match useContext PostContext_default providers with
  | None => Throw (mkError "PostContext was used outside of the PostProvider")
  | Some context => Return context
  end.

(** ** The add-post form *)
Module FormAddPost.

(** The two [useState] cells of the form. *)
Record State := mkState { title : JsString; body : JsString }.

(** What a run of the submit handler does, in order. *)
Inductive Effect : Type :=
| PreventDefault
| OnAddPost (post : Post)
| SetTitle (v : JsString)
| SetBody (v : JsString).

(** [handleSubmit]: [e.preventDefault()], the early [return] when [!body]
    or [!title], else the call of [onAddPost] and the two resets. *)
Definition handleSubmit (st : State) : list Effect :=
  PreventDefault ::
  (if negb (Js.toBoolean (body st)) || negb (Js.toBoolean (title st))
   then []
   else [OnAddPost (post_of (title st) (body st));
         SetTitle (js ""); SetBody (js "")]).

(** The arguments of the calls of [onAddPost] in a run, in order. *)
Fixpoint onAddPost_calls (run : list Effect) : list Post :=
  match run with
  | [] => []
  | OnAddPost post :: run' => post :: onAddPost_calls run'
  | _ :: run' => onAddPost_calls run'
  end.

(** The form state after a run. *)
Fixpoint form_after (run : list Effect) (st : State) : State :=
  match run with
  | [] => st
  | SetTitle v :: run' => form_after run' {| title := v; body := body st |}
  | SetBody v :: run' => form_after run' {| title := title st; body := v |}
  | _ :: run' => form_after run' st
  end.

(** The store after a run whose [onAddPost] is the provider's
    [handleAddPost]. *)
Fixpoint store_after (run : list Effect) (store : Store) : Store :=
  match run with
  | [] => store
  | OnAddPost post :: run' => store_after run' (handleAddPost post store)
  | _ :: run' => store_after run' store
  end.

End FormAddPost.

(** ** The filter in the words of the specification *)

Section Specification.

Context `{Unicode : UnicodeData}.

(** [q] occurs in [text] when letter case is ignored: some stretch [u] of
    [text] is [q] up to the case of its letters. *)
Definition occurs_ignoring_case (q text : JsString) : Prop :=
  ∃ before u after,
    text = before ++ u ++ after ∧ Js.toLowerCase u = Js.toLowerCase q.

(** The title, a single space, the body. *)
Definition title_space_body (p : Post) : JsString :=
  Js.toString (title p) ++ js " " ++ Js.toString (body p).

(** The posts the specification lets through for the query [q]. *)
Definition spec_visible (q : JsString) (p : Post) : Prop :=
  occurs_ignoring_case q (title_space_body p).

(** The lowered [q] is a stretch of the lowered [text]: case is folded on
    both sides, then the substring is looked for. *)
Definition occurs_lowered (q text : JsString) : Prop :=
  ∃ before after,
    Js.toLowerCase text = before ++ Js.toLowerCase q ++ after.

(** The posts let through when case is folded on both sides first. *)
Definition lowered_visible (q : JsString) (p : Post) : Prop :=
  occurs_lowered q (title_space_body p).

End Specification.

(** A string of ASCII characters. *)
Definition ascii_string (s : JsString) : Prop := Forall (λ c, (c < 128)%N) s.

(** Two code points that are the same, or the capital and the small form
    of one of the letters A .. Z. *)
Definition same_letter (a b : N) : Prop :=
  a = b
  ∨ ((65 ≤ a ≤ 90)%N ∧ b = (a + 32)%N)
  ∨ ((65 ≤ b ≤ 90)%N ∧ a = (b + 32)%N).

(** [q] is a stretch of [text] up to the case of the letters A .. Z. *)
Definition occurs_up_to_letter_case (q text : JsString) : Prop :=
  ∃ before u after,
    text = before ++ u ++ after ∧ Forall2 same_letter u q.

(** ** The whole application

    [App-v1.js] and the memoized variant put the store, the dark-mode flag,
    the form and the archive in one tree of components.  A state of the
    application is the content of their [useState] cells together with the
    class list of the document element, which the effect of [App] writes. *)

Module DOMTokenList.

(** [classList.toggle(token)]: the token is removed when it is there, and
    added at the end when it is not. *)
Definition toggle (token : string) (tokens : list string) : list string :=
  if decide (token ∈ tokens)
  then filter (λ t, t ≠ token) tokens
  else tokens ++ [token].

End DOMTokenList.

(** [useEffect(effect, deps)], once the render is committed: the effect runs
    after the initial render ([prev] is [None]) and after a render whose
    dependencies differ from those of the render before. *)
Definition useEffect {D Dom : Type} `{EqDecision D} (effect : Dom → Dom)
    (deps : D) (prev : option D) (dom : Dom) : Dom :=
  match prev with
  | Some deps0 => if decide (deps0 = deps) then dom else effect dom
  | None => effect dom
  end.

(** [useMemo(factory, deps)]: the cell keeps the dependencies and the value
    of the last computation; the factory is called when there is none or
    the dependencies differ.  The third component tells whether the value
    is a new object. *)
Definition useMemo {D V : Type} `{EqDecision D} (factory : () → V)
    (deps : D) (cell : option (D * V)) : V * option (D * V) * bool :=
  match cell with
  | Some (deps0, v) =>
      if decide (deps0 = deps) then (v, cell, false)
      else let v' := factory () in (v', Some (deps, v'), true)
  | None => let v' := factory () in (v', Some (deps, v'), true)
  end.

Module App.

Record State := mkState {
  store : Store;                (* [posts] and [searchQuery] of [App] *)
  isFakeDark : bool;            (* third cell of [App] *)
  form : FormAddPost.State;     (* [title] and [body] of [FormAddPost] *)
  archive : list Post;          (* [posts] of [Archive] *)
  showArchive : bool;           (* [showArchive] of [Archive] *)
  classList : list string       (* [document.documentElement.classList] *)
}.

(** The events the rendered tree has a handler for. *)
Inductive Event : Type :=
| ClickFakeDarkMode             (* [setIsFakeDark((isFakeDark) => !isFakeDark)] *)
| ChangeSearch (value : JsString) (* [setSearchQuery(e.target.value)] *)
| ClickClearPosts               (* [onClearPosts] *)
| ChangeTitle (value : JsString)  (* [setTitle(e.target.value)] *)
| ChangeBody (value : JsString)   (* [setBody(e.target.value)] *)
| SubmitForm                    (* [handleSubmit] *)
| ClickShowArchive              (* [setShowArchive((s) => !s)] *)
| ClickAddAsNewPost (i : nat).  (* [onAddPost(post)] of the [i]-th item *)

Global Instance Event_eq_dec : EqDecision Event.
Proof. solve_decision. Defined.

(** The items of the archive list: [showArchive && posts.map(...)].  Each
    item carries an Add as new post button. *)
Definition Archive_items (st : State) : list Post :=
  if showArchive st then archive st else [].

Definition set_store (f : Store → Store) (st : State) : State :=
  {| store := f (store st); isFakeDark := isFakeDark st; form := form st;
     archive := archive st; showArchive := showArchive st;
     classList := classList st |}.

Definition set_form (f : FormAddPost.State → FormAddPost.State) (st : State)
  : State :=
  {| store := store st; isFakeDark := isFakeDark st; form := f (form st);
     archive := archive st; showArchive := showArchive st;
     classList := classList st |}.

Definition setIsFakeDark (a : SetStateAction bool) (st : State) : State :=
  {| store := store st; isFakeDark := applyAction a (isFakeDark st);
     form := form st; archive := archive st; showArchive := showArchive st;
     classList := classList st |}.

Definition setShowArchive (a : SetStateAction bool) (st : State) : State :=
  {| store := store st; isFakeDark := isFakeDark st; form := form st;
     archive := archive st; showArchive := applyAction a (showArchive st);
     classList := classList st |}.

Definition set_classList (f : list string → list string) (st : State)
  : State :=
  {| store := store st; isFakeDark := isFakeDark st; form := form st;
     archive := archive st; showArchive := showArchive st;
     classList := f (classList st) |}.

(** The handler of an event.  There is no result when the tree has no such
    handler: the Add as new post button of an item that is not rendered. *)
Definition handle (ev : Event) (st : State) : option State :=
  match ev with
  | ClickFakeDarkMode => Some (setIsFakeDark (Updater negb) st)
  | ChangeSearch value => Some (set_store (SearchPosts_onChange value) st)
  | ClickClearPosts => Some (set_store handleClearPosts st)
  | ChangeTitle value =>
      Some (set_form
              (λ f, {| FormAddPost.title := value;
                       FormAddPost.body := FormAddPost.body f |}) st)
  | ChangeBody value =>
      Some (set_form
              (λ f, {| FormAddPost.title := FormAddPost.title f;
                       FormAddPost.body := value |}) st)
  | SubmitForm =>
      let run := FormAddPost.handleSubmit (form st) in
      Some (set_form (FormAddPost.form_after run)
              (set_store (FormAddPost.store_after run) st))
  | ClickShowArchive => Some (setShowArchive (Updater negb) st)
  | ClickAddAsNewPost i =>
      post ← Archive_items st !! i;
      Some (set_store (handleAddPost post) st)
  end.

(** The effect of [App], with [isFakeDark] as its only dependency. *)
Definition fakeDarkMode_effect (prev : option bool) (st : State) : State :=
  set_classList
    (useEffect (DOMTokenList.toggle "fake-dark-mode") (isFakeDark st) prev)
    st.

(** An event: its handler, then the render and the effect. *)
Definition dispatch (ev : Event) (st : State) : option State :=
  st' ← handle ev st;
  Some (fakeDarkMode_effect (Some (isFakeDark st)) st').

(** A sequence of events, first to last. *)
Fixpoint run (evs : list Event) (st : State) : option State :=
  match evs with
  | [] => Some st
  | ev :: evs' => dispatch ev st ≫= run evs'
  end.

Section Mount.

Variable Rng : Type.
Variables faker_hacker_adjective faker_hacker_noun faker_hacker_phrase
  : Rng → JsString * Rng.

(** The initial render: the cells of [App] first, then those of its
    children, of which [Archive] alone draws from [faker]; the effect runs
    on the class list as the document has it. *)
Definition mount (rng : Rng) (classList0 : list string) : State * Rng :=
  let '(store0, rng1) :=
    PostProvider_state Rng faker_hacker_adjective faker_hacker_noun
      faker_hacker_phrase None rng in
  let '(archive0, rng2) :=
    useState Rng
      (Array_from Rng 10000
         (createRandomPost Rng faker_hacker_adjective faker_hacker_noun
            faker_hacker_phrase))
      None rng1 in
  (fakeDarkMode_effect None
     {| store := store0; isFakeDark := false;
        form := FormAddPost.mkState (js "") (js "");
        archive := archive0; showArchive := false;
        classList := classList0 |},
   rng2).

End Mount.

End App.

(** The number of clicks on the dark-mode button in a sequence of
    events. *)
Definition dark_mode_clicks (evs : list App.Event) : nat :=
  length (filter (λ ev, ev = App.ClickFakeDarkMode) evs).

(** ** The memoized archive options

    The memoized variant hands [Archive], wrapped in [memo], an object made
    by [useMemo] with [posts.length] as its only dependency. *)
Module Memoized.

Record ArchiveOptions := mkArchiveOptions { show : bool; title : string }.

(** The function passed to [useMemo]; [pretty] writes the length in
    decimal digits, as the template literal does. *)
Definition archiveOptions_factory (posts : list Post) : ArchiveOptions :=
  {| show := false;
     title := "Post archive in addition to " +:+ pretty (length posts)
                +:+ " main posts" |}.

(** What is kept from one render of [App] to the next: the cell of
    [useMemo], and the [archiveOptions] that [Archive] was last rendered
    with ([None] before the initial render). *)
Record Rendered := mkRendered {
  memo_cell : option (nat * ArchiveOptions);
  Archive_props : option ArchiveOptions
}.

Definition initial : Rendered :=
  {| memo_cell := None; Archive_props := None |}.

(** A render of [App] with the store [st].  [Archive] is rendered again
    when a prop is a new object; [onAddPost] comes from [useCallback] with
    no dependency and [setIsFakeDark] is a state setter, so [archiveOptions]
    is the one prop that can be. *)
Definition render (st : Store) (r : Rendered) : Rendered :=
  let '(archiveOptions, cell, fresh) :=
    useMemo (λ _, archiveOptions_factory (posts st)) (length (posts st))
      (memo_cell r) in
  {| memo_cell := cell;
     Archive_props := if fresh then Some archiveOptions
                      else Archive_props r |}.

(** Was the factory called in the render of [st] after [r]? *)
Definition recomputed (st : Store) (r : Rendered) : bool :=
  (useMemo (λ _, archiveOptions_factory (posts st)) (length (posts st))
     (memo_cell r)).2.

(** The renders of a sequence of stores, first to last. *)
Definition renders (sts : list Store) (r : Rendered) : Rendered :=
  foldl (λ r st, render st r) r sts.

End Memoized.

(** * Properties *)

(** ** Substrings *)

Lemma occursAtStart_spec (q s : JsString) :
  Js.occursAtStart q s = true ↔ ∃ after, s = q ++ after.
Proof.
  revert s. induction q as [|a q IH]; intros s; simpl.
  - split; [intros _; by exists s | done].
  - destruct s as [|b s].
    + split; [done | intros [after H]; discriminate].
    + case_decide as Hab.
      * subst b. rewrite IH. split.
        -- intros [after ->]. by exists after.
        -- intros [after H]. injection H as ->. by exists after.
      * split; [done |]. intros [after H]. injection H as ? _. congruence.
Qed.

(** [includes] finds exactly the substrings. *)
Lemma includes_spec (s q : JsString) :
  Js.includes s q = true ↔ ∃ before after, s = before ++ q ++ after.
Proof.
  induction s as [|c s IH]; simpl; rewrite orb_true_iff, occursAtStart_spec.
  - split.
    + intros [[after H] | ?]; [|done]. by exists [], after.
    + intros (before & after & H). left.
      destruct before; [by exists after | discriminate].
  - rewrite IH. split.
    + intros [[after H] | (before & after & H)].
      * by exists [], after.
      * exists (c :: before), after. simpl. by rewrite H.
    + intros (before & after & H). destruct before as [|d before].
      * left. by exists after.
      * right. injection H as _ H. by exists before, after.
Qed.

(** ** Lowering *)

Section LoweringProperties.

Context `{Unicode : UnicodeData}.

(** An ASCII character is lowered on its own, whatever is around it: the
    letters A .. Z go 32 further and the rest stays. *)
Lemma lowercaseMapping_ascii (c : N) :
  (c < 128)%N →
  Js.lowercaseMapping c
  = (if decide (65 ≤ c ≤ 90)%N then (c + 32)%N else c)
  ∧ (Js.lowercaseMapping c < 128)%N.
Proof.
  intros Hc. unfold Js.lowercaseMapping.
  destruct (65 <=? c)%N eqn:H1, (c <=? 90)%N eqn:H2; simpl;
    try (assert ((c <? 192)%N = true) as -> by (apply N.ltb_lt; lia));
    rewrite ?N.leb_le, ?N.leb_gt in *;
    case_decide; split; lia.
Qed.

Lemma toLowerCasePoint_ascii (before after : list N) (c : N) :
  (c < 128)%N →
  Js.toLowerCasePoint before c after = [Js.lowercaseMapping c].
Proof.
  intros Hc. unfold Js.toLowerCasePoint.
  assert ((c =? 304)%N = false) as -> by (apply N.eqb_neq; lia).
  by assert ((c =? 931)%N = false) as -> by (apply N.eqb_neq; lia).
Qed.

(** What is passed is lowered into some stretch, and the rest goes on from
    there. *)
Lemma toLowerCaseFrom_app (before s rest : list N) :
  ∃ out,
    Js.toLowerCaseFrom before (s ++ rest)
    = out ++ Js.toLowerCaseFrom (reverse s ++ before) rest.
Proof.
  revert before. induction s as [|c s IH]; intros before.
  - by exists [].
  - destruct (IH (c :: before)) as [out Hout].
    exists (Js.toLowerCasePoint before c (s ++ rest) ++ out).
    simpl. rewrite Hout, reverse_cons, <- !(assoc_L (++)). done.
Qed.

Lemma toLowerCaseFrom_ascii_app (before s rest : list N) :
  ascii_string s →
  Js.toLowerCaseFrom before (s ++ rest)
  = (Js.lowercaseMapping <$> s)
      ++ Js.toLowerCaseFrom (reverse s ++ before) rest.
Proof.
  intros Hs. revert before. induction Hs as [|c s Hc Hs IH]; intros before.
  - done.
  - simpl. rewrite toLowerCasePoint_ascii by done.
    rewrite IH, reverse_cons, <- !(assoc_L (++)). done.
Qed.

Lemma toLowerCase_ascii (s : JsString) :
  ascii_string s → Js.toLowerCase s = Js.lowercaseMapping <$> s.
Proof.
  intros Hs. unfold Js.toLowerCase.
  rewrite <- (right_id_L [] (++) s) at 1.
  rewrite toLowerCaseFrom_ascii_app by done. simpl. apply (right_id_L [] (++)).
Qed.

(** Lowering leaves no character out. *)
Lemma toLowerCasePoint_not_nil (before after : list N) (c : N) :
  Js.toLowerCasePoint before c after ≠ [].
Proof.
  unfold Js.toLowerCasePoint.
  destruct (c =? 304)%N; [done |]. by destruct (c =? 931)%N.
Qed.

Lemma toLowerCase_nil (s : JsString) : Js.toLowerCase s = [] ↔ s = [].
Proof.
  split; [|by intros ->]. destruct s as [|c s]; [done |].
  unfold Js.toLowerCase. simpl. intros [H0 _]%app_eq_nil.
  by apply toLowerCasePoint_not_nil in H0.
Qed.

(** Two ASCII characters have the same lower case exactly when they are
    the same letter. *)
Lemma lowercaseMapping_same_letter (a b : N) :
  (a < 128)%N → (b < 128)%N →
  Js.lowercaseMapping a = Js.lowercaseMapping b ↔ same_letter a b.
Proof.
  intros Ha Hb.
  destruct (lowercaseMapping_ascii a Ha) as [-> _].
  destruct (lowercaseMapping_ascii b Hb) as [-> _].
  unfold same_letter. repeat case_decide; lia.
Qed.

Lemma fmap_lowercaseMapping_same_letter (u q : JsString) :
  ascii_string u → ascii_string q →
  Js.lowercaseMapping <$> u = Js.lowercaseMapping <$> q
  ↔ Forall2 same_letter u q.
Proof.
  intros Hu. revert q. induction Hu as [|a u Ha Hu IH]; intros q Hq.
  - destruct q; simpl; [|split; [done | by intros ?%Forall2_nil_cons_inv]].
    split; [by constructor | done].
  - destruct Hq as [|b q Hb Hq]; simpl.
    + split; [done | by intros ?%Forall2_cons_nil_inv].
    + split.
      * intros [= Hab Huq]. constructor.
        -- by apply lowercaseMapping_same_letter.
        -- by apply IH.
      * intros [Hab Huq]%Forall2_cons. f_equal.
        -- by apply lowercaseMapping_same_letter.
        -- by apply IH.
Qed.

(** The space is neither a cased letter nor skipped, so a sigma sees no
    further than the next space. *)
Lemma casedLetterNext_space (side rest : list N) :
  Js.casedLetterNext (side ++ 32%N :: rest) = Js.casedLetterNext side.
Proof.
  induction side as [|c side IH]; simpl; [done |].
  destruct (Js.caseContext c); [done | exact IH | done].
Qed.

Lemma toLowerCasePoint_space_after (before after rest : list N) (c : N) :
  Js.toLowerCasePoint before c (after ++ 32%N :: rest)
  = Js.toLowerCasePoint before c after.
Proof.
  unfold Js.toLowerCasePoint, Js.finalSigma.
  by rewrite casedLetterNext_space.
Qed.

Lemma toLowerCasePoint_space_before (before rest after : list N) (c : N) :
  Js.toLowerCasePoint (before ++ 32%N :: rest) c after
  = Js.toLowerCasePoint before c after.
Proof.
  unfold Js.toLowerCasePoint, Js.finalSigma.
  by rewrite casedLetterNext_space.
Qed.

Lemma toLowerCaseFrom_space_before (before rest s : list N) :
  Js.toLowerCaseFrom (before ++ 32%N :: rest) s
  = Js.toLowerCaseFrom before s.
Proof.
  revert before. induction s as [|c s IH]; intros before; simpl; [done |].
  rewrite toLowerCasePoint_space_before. f_equal.
  apply (IH (c :: before)).
Qed.

Lemma toLowerCaseFrom_space (before t b : list N) :
  Js.toLowerCaseFrom before (t ++ js " " ++ b)
  = Js.toLowerCaseFrom before t ++ js " " ++ Js.toLowerCase b.
Proof.
  revert before. induction t as [|c t IH]; intros before.
  - simpl. f_equal. apply (toLowerCaseFrom_space_before [] before b).
  - simpl. rewrite <- (assoc_L (++)). f_equal.
    + apply (toLowerCasePoint_space_after before t b c).
    + apply IH.
Qed.

(** The space between title and body keeps the two apart: the lowered
    text is the lowered title, a space, the lowered body. *)
Lemma toLowerCase_space (t b : JsString) :
  Js.toLowerCase (t ++ js " " ++ b)
  = Js.toLowerCase t ++ js " " ++ Js.toLowerCase b.
Proof. apply toLowerCaseFrom_space. Qed.

(** The test of the filter callback: case is folded on both sides, then
    the substring is looked for. *)
Lemma includes_toLowerCase_spec (text q : JsString) :
  Js.includes (Js.toLowerCase text) (Js.toLowerCase q) = true
  ↔ occurs_lowered q text.
Proof. apply includes_spec. Qed.

Global Instance occurs_lowered_dec (q text : JsString) :
  Decision (occurs_lowered q text).
Proof.
  refine (cast_if
            (decide (Js.includes (Js.toLowerCase text) (Js.toLowerCase q)
                     = true)));
    by rewrite <- includes_toLowerCase_spec.
Defined.

Global Instance lowered_visible_dec (q : JsString) (p : Post) :
  Decision (lowered_visible q p).
Proof. unfold lowered_visible. apply _. Defined.

Lemma occurs_lowered_empty (text : JsString) : occurs_lowered [] text.
Proof. by exists [], (Js.toLowerCase text). Qed.

Lemma occurs_lowered_trans (q q' text : JsString) :
  occurs_lowered q q' → occurs_lowered q' text → occurs_lowered q text.
Proof.
  intros (b1 & a1 & H1) (b2 & a2 & H2).
  exists (b2 ++ b1), (a1 ++ a2).
  by rewrite H2, H1, <- !(assoc_L (++)).
Qed.

(** On ASCII text and query, folding case on both sides is matching up to
    the case of the letters A .. Z. *)
Lemma occurs_lowered_ascii (q text : JsString) :
  ascii_string text → ascii_string q →
  occurs_lowered q text ↔ occurs_up_to_letter_case q text.
Proof.
  intros Ht Hq. unfold occurs_lowered, occurs_up_to_letter_case.
  rewrite (toLowerCase_ascii text Ht), (toLowerCase_ascii q Hq). split.
  - intros (b & a & Hba).
    apply fmap_app_inv in Hba as (s1 & s' & -> & Hs' & ->).
    symmetry in Hs'.
    apply fmap_app_inv in Hs' as (u & s3 & Hu & -> & ->).
    exists s1, u, s3. split; [done |].
    apply Forall_app in Ht as [_ [Hu' _]%Forall_app].
    by apply fmap_lowercaseMapping_same_letter.
  - intros (s1 & u & s3 & -> & Hu).
    exists (Js.lowercaseMapping <$> s1), (Js.lowercaseMapping <$> s3).
    rewrite !fmap_app. do 2 f_equal.
    apply Forall_app in Ht as [_ [Hu' _]%Forall_app].
    by apply fmap_lowercaseMapping_same_letter.
Qed.

(** ** The derived list *)

Lemma searchedPosts_nonempty (posts : list Post) (q : JsString) :
  0 < length q →
  searchedPosts posts q = filter (lowered_visible q) posts.
Proof.
  intros Hq. unfold searchedPosts. case_decide; [|lia].
  apply list_filter_iff. intros p.
  rewrite Is_true_true. apply includes_toLowerCase_spec.
Qed.

Lemma lowered_visible_lowered (q q' : JsString) (p p' : Post) :
  Js.toLowerCase q' = Js.toLowerCase q →
  Js.toLowerCase (title_space_body p')
  = Js.toLowerCase (title_space_body p) →
  lowered_visible q' p' ↔ lowered_visible q p.
Proof.
  intros Hq Hp. unfold lowered_visible, occurs_lowered. by rewrite Hq, Hp.
Qed.

Lemma nonempty_lowered (q q' : JsString) :
  Js.toLowerCase q' = Js.toLowerCase q → 0 < length q → 0 < length q'.
Proof.
  intros Hl Hq. destruct q' as [|c q']; [|simpl; lia].
  assert (q = []) as -> by (apply toLowerCase_nil; by rewrite <- Hl).
  simpl in Hq. lia.
Qed.

End LoweringProperties.

(** C1.  For a query of nonzero length, [searchedPosts] is the list of the
    posts for which the lowered title, space and body contain the lowered
    query, in the order of [posts]: it is [posts] filtered by that test,
    hence a sublist of [posts] whose members are the members of [posts]
    that pass it.  When the text of a post and the query are ASCII, the
    test is that the text contains the query up to the case of the letters
    A .. Z.  A query with the same lowered form gives the same list, and a
    post whose text has the same lowered form is kept or dropped alike. *)
Theorem searchedPosts_filters_lowered `{Unicode : UnicodeData}
    (posts : list Post) (q : JsString) :
  0 < length q →
  searchedPosts posts q = filter (lowered_visible q) posts
  ∧ searchedPosts posts q `sublist_of` posts
  ∧ (∀ p, p ∈ searchedPosts posts q ↔ p ∈ posts ∧ lowered_visible q p)
  ∧ (∀ t b, title_space_body (post_of t b) = t ++ js " " ++ b)
  ∧ (∀ p, ascii_string (title_space_body p) → ascii_string q →
          lowered_visible q p
          ↔ occurs_up_to_letter_case q (title_space_body p))
  ∧ (∀ q', Js.toLowerCase q' = Js.toLowerCase q →
           searchedPosts posts q' = searchedPosts posts q)
  ∧ (∀ p p', Js.toLowerCase (title_space_body p')
             = Js.toLowerCase (title_space_body p) →
             p' ∈ searchedPosts [p'] q ↔ p ∈ searchedPosts [p] q).
Proof.
  intros Hq. rewrite (searchedPosts_nonempty posts q Hq).
  split; [done |]. split; [apply sublist_filter |].
  split; [intros p; rewrite list_elem_of_filter; tauto |].
  split; [done |]. split.
  { intros p Hp Hqa. by apply occurs_lowered_ascii. }
  split.
  - intros q' Hq'.
    rewrite (searchedPosts_nonempty posts q' (nonempty_lowered _ _ Hq' Hq)).
    apply list_filter_iff. intros p. by apply lowered_visible_lowered.
  - intros p p' Hp. rewrite !(searchedPosts_nonempty _ q Hq).
    rewrite !list_elem_of_filter, !list_elem_of_singleton.
    pose proof (lowered_visible_lowered q q p p' eq_refl Hp). tauto.
Qed.

(** The example of the specification: the post titled Quantum Driver is
    found under the query in lower case and in upper case alike, since
    text and query are ASCII. *)
Lemma searchedPosts_filters_lowered_witness :
  let quantum := post_of "Quantum Driver" "Try to index the SMS bus" in
  let other := post_of "Edge" "Case" in
  searchedPosts (Unicode := rows_left_alone) [other; quantum; other] "QUANTUM"
  = [quantum]
  ∧ searchedPosts (Unicode := rows_left_alone) [other; quantum; other]
      "quantum"
    = [quantum]
  ∧ (lowered_visible (Unicode := rows_left_alone) "QUANTUM" quantum
     ↔ occurs_up_to_letter_case "QUANTUM" (title_space_body quantum)).
Proof.
  intros quantum other.
  destruct (searchedPosts_filters_lowered (Unicode := rows_left_alone)
              [other; quantum; other] "QUANTUM")
    as (_ & _ & _ & _ & Hascii & Hq & _).
  { simpl. lia. }
  split; [by vm_compute |]. split.
  - by rewrite (Hq "quantum" eq_refl).
  - apply Hascii; apply Forall_forall; intros c Hc;
      repeat (apply elem_of_cons in Hc as [-> | Hc]; [done |]);
      by apply elem_of_nil in Hc.
Defined.

(** The claim as the specification has it fails outside ASCII.  The
    title of the post is the Greek text alpha, capital sigma, alpha (913,
    931, 913) and the query is its first two characters.  The text has the
    query as it stands, yet the post is not found: the sigma at the end of
    the query is lowered to a final sigma, the one inside the title is not.
    The same query in small letters (945, 963) finds the post. *)
Lemma searchedPosts_final_sigma_counterexample :
  let p := post_of [913; 931; 913]%N "x" in
  let q : JsString := [913; 931]%N in
  0 < length q
  ∧ p ∈ [p]
  ∧ title_space_body p = q ++ [913; 32; 120]%N
  ∧ spec_visible (Unicode := rows_left_alone) q p
  ∧ searchedPosts (Unicode := rows_left_alone) [p] q = []
  ∧ searchedPosts (Unicode := rows_left_alone) [p] [945; 963]%N = [p]
  ∧ ¬ (∀ (Unicode : UnicodeData) (posts : list Post) (q0 : JsString),
         0 < length q0 →
         ∀ p0, p0 ∈ searchedPosts posts q0
               ↔ p0 ∈ posts ∧ spec_visible q0 p0).
Proof.
  intros p q.
  assert (spec_visible (Unicode := rows_left_alone) q p) as Hspec.
  { by exists [], q, [913; 32; 120]%N. }
  assert (searchedPosts (Unicode := rows_left_alone) [p] q = []) as Hnone.
  { by vm_compute. }
  split; [simpl; lia |]. split; [apply list_elem_of_here |].
  split; [done |]. split; [done |]. split; [done |].
  split; [by vm_compute |].
  intros Hclaim.
  assert (p ∈ searchedPosts (Unicode := rows_left_alone) [p] q) as Hin.
  { apply Hclaim; [simpl; lia |]. split; [apply list_elem_of_here | done]. }
  rewrite Hnone in Hin. by apply elem_of_nil in Hin.
Qed.

(** C4.  With the empty query no filter is applied: [searchedPosts] is
    [posts] itself, same members in the same order, and so is the [posts]
    the provider hands out once the query has been set to the empty
    string. *)
Theorem searchedPosts_empty_query `{Unicode : UnicodeData} (l : list Post) :
  searchedPosts l "" = l
  ∧ ∀ q0, ctx_posts
            (PostProvider_value (SearchPosts_onChange "" (mkStore l q0)))
          = l.
Proof. split; [reflexivity | intros q0; reflexivity]. Qed.

(** C5.  The text that is searched joins title and body with one space.
    The post with title Edge and body Case is never among the posts found
    for the query gecas, although Edge and Case put together without a
    space would contain it; it is found for the query dge cas whenever it is
    in [posts]. *)
Theorem searchedPosts_edge_case `{Unicode : UnicodeData} (l : list Post) :
  let p := post_of "Edge" "Case" in
  (p ∉ searchedPosts l "gecas")
  ∧ Js.includes (Js.toLowerCase (js "Edge" ++ js "Case"))
      (Js.toLowerCase "gecas")
    = true
  ∧ (p ∈ searchedPosts l "dge cas" ↔ p ∈ l)
  ∧ title_space_body p = "Edge Case".
Proof.
  intros p. unfold searchedPosts. simpl.
  rewrite !list_elem_of_filter.
  split; [intros [H _]; exact H |]. split; [reflexivity |].
  split; [|reflexivity]. split; [tauto |]. intros H. split; [exact I | done].
Qed.

(** ** The handlers *)

(** C2.  [handleAddPost] puts the post in front of the list as it was: the
    list is one longer, the post is at index 0, and every post of the list
    before is one index further, so none is dropped or moved past
    another. *)
Theorem handleAddPost_prepends (st : Store) (p : Post) :
  posts (handleAddPost p st) = p :: posts st
  ∧ length (posts (handleAddPost p st)) = S (length (posts st))
  ∧ posts (handleAddPost p st) !! 0 = Some p
  ∧ (∀ i, posts (handleAddPost p st) !! S i = posts st !! i)
  ∧ posts st `sublist_of` posts (handleAddPost p st).
Proof.
  repeat split; try reflexivity. simpl. by apply sublist_cons.
Qed.

(** C3.  [handleClearPosts] leaves the empty list whatever the list was,
    the empty one included, and a second call in a row changes nothing
    more: the store, and the posts handed out for any query, are those after
    the first call. *)
Theorem handleClearPosts_empties_idempotent `{Unicode : UnicodeData}
    (st : Store) :
  posts (handleClearPosts st) = []
  ∧ posts (handleClearPosts (handleClearPosts st)) = []
  ∧ handleClearPosts (handleClearPosts st) = handleClearPosts st
  ∧ (posts st = [] → handleClearPosts st = st)
  ∧ ctx_posts (PostProvider_value (handleClearPosts st)) = [].
Proof.
  repeat split; try reflexivity.
  - intros H. destruct st as [l q]. simpl in H. by subst l.
  - unfold PostProvider_value, searchedPosts. simpl. by case_decide.
Qed.

Lemma handleClearPosts_empties_idempotent_witness :
  handleClearPosts (mkStore [] "abc") = mkStore [] "abc".
Proof.
  by apply (handleClearPosts_empties_idempotent (Unicode := rows_left_alone)
              (mkStore [] "abc")).
Defined.

(** C7.  The three mutations are functions of the store with no failing
    case: each has a resulting store for every argument.  [handleAddPost]
    does not look at the post, so a post without title or body, or with an
    empty one, is put in front like any other. *)
Theorem store_mutations_total (st : Store) :
  (∀ p, ∃ st', handleAddPost p st = st' ∧ posts st' = p :: posts st)
  ∧ (∃ st', handleClearPosts st = st' ∧ posts st' = [])
  ∧ (∀ q, ∃ st', SearchPosts_onChange q st = st' ∧ searchQuery st' = q)
  ∧ (∀ p, malformed p → posts (handleAddPost p st) = p :: posts st).
Proof.
  split; [intros p; by eexists |]. split; [by eexists |].
  split; [intros q; by eexists |]. by intros p _.
Qed.

Lemma store_mutations_total_witness :
  malformed (mkPost None (Some (js "")))
  ∧ posts (handleAddPost (mkPost None (Some (js ""))) (mkStore [] "x"))
    = [mkPost None (Some (js ""))].
Proof.
  split; [by left |].
  apply (store_mutations_total (mkStore [] "x")). by left.
Defined.

(** C9.  Each mutation writes its own cell only: [handleAddPost] and
    [handleClearPosts] leave [searchQuery] as it was, and the setter of the
    query leaves [posts] as it was and stores the string it is given as it
    is. *)
Theorem mutations_frame (st : Store) :
  (∀ p, searchQuery (handleAddPost p st) = searchQuery st)
  ∧ searchQuery (handleClearPosts st) = searchQuery st
  ∧ (∀ a, posts (setSearchQuery a st) = posts st)
  ∧ (∀ q, searchQuery (setSearchQuery (NextValue q) st) = q)
  ∧ (∀ q, SearchPosts_onChange q st
          = {| posts := posts st; searchQuery := q |}).
Proof. by repeat split. Qed.

(** ** The context accessor *)

(** C10.  With no provider around it, [usePosts] throws the error whose
    message is given in the source; with a provider around it, it returns
    the value of the nearest one, which for [PostProvider] is the value made
    from its store. *)
Theorem usePosts_outside_provider `{Unicode : UnicodeData} :
  usePosts []
  = Throw (mkError "PostContext was used outside of the PostProvider")
  ∧ (∀ value outer, usePosts (value :: outer) = Return value)
  ∧ (∀ st, usePosts [PostProvider_value st] = Return (PostProvider_value st)).
Proof. by repeat split. Qed.

(** ** Store creation *)

Section FakerProperties.

Variable Rng : Type.
Variables adjective noun phrase : Rng → JsString * Rng.

Local Abbreviation createRandomPost := (createRandomPost Rng adjective noun phrase).
Local Abbreviation generated := (generated Rng adjective noun phrase).
Local Abbreviation PostProvider_state :=
  (PostProvider_state Rng adjective noun phrase).

Lemma createRandomPost_post (rng : Rng) :
  ∃ t b, (createRandomPost rng).1 = post_of t b.
Proof.
  unfold createRandomPost.
  destruct (adjective rng) as [a r1], (noun r1) as [n r2],
    (phrase r2) as [ph r3]. by eexists _, _.
Qed.

Lemma Array_from_generated (n : nat) (rng : Rng) :
  (Array_from Rng n createRandomPost rng).1 = generated n rng.
Proof.
  revert rng. induction n as [|n IH]; intros rng; simpl; [done |].
  destruct (createRandomPost rng) as [p r1]. simpl.
  specialize (IH r1). destruct (Array_from Rng n _ r1) as [ps r2].
  simpl in *. by rewrite IH.
Qed.

Lemma generated_length (n : nat) (rng : Rng) : length (generated n rng) = n.
Proof.
  revert rng. induction n as [|n IH]; intros rng; simpl; [done |].
  by rewrite IH.
Qed.

Lemma generated_posts (n : nat) (rng : Rng) :
  Forall (λ p, ∃ t b, p = post_of t b) (generated n rng).
Proof.
  revert rng. induction n as [|n IH]; intros rng; simpl; [done |].
  constructor; [apply createRandomPost_post | apply IH].
Qed.

Lemma PostProvider_initial_store_posts (rng : Rng) :
  posts (PostProvider_state None rng).1 = generated 30 rng
  ∧ searchQuery (PostProvider_state None rng).1 = "".
Proof.
  unfold PostProvider_state, useState. rewrite <- Array_from_generated.
  cbn [fmap option_fmap option_map].
  by destruct (Array_from Rng 30 _ rng).
Qed.

(** C6.  The initial render creates the store: its [posts] are the results
    of 30 calls of [createRandomPost] in a row, 30 posts with a title and a
    body each, and its [searchQuery] is the empty string.  The creation has
    a result for every generator, and it happens at the initial render
    only: a later render returns the store it is given and draws nothing
    from the generator. *)
Theorem PostProvider_initial_store (rng : Rng) :
  let st := (PostProvider_state None rng).1 in
  posts st = generated 30 rng
  ∧ length (posts st) = 30
  ∧ Forall (λ p, ∃ t b, p = post_of t b) (posts st)
  ∧ searchQuery st = ""
  ∧ ∀ st0 rng0, PostProvider_state (Some st0) rng0 = (st0, rng0).
Proof.
  assert (posts (PostProvider_state None rng).1 = generated 30 rng) as Hp.
  { unfold PostProvider_state, useState.
    rewrite <- Array_from_generated. cbn [fmap option_fmap option_map].
    by destruct (Array_from Rng 30 _ rng). }
  cbv zeta. rewrite Hp.
  split; [done |]. split; [apply generated_length |].
  split; [apply generated_posts |]. split.
  - unfold PostProvider_state, useState.
    cbn [fmap option_fmap option_map].
    by destruct (Array_from Rng 30 _ rng).
  - by intros [l q] rng0.
Qed.

End FakerProperties.

(** ** The add-post form *)

(** C8.  A submit with an empty title or an empty body calls [onAddPost]
    not at all, and leaves form and store as they were; a submit with both
    filled in calls it once, with the post made of the title and the body
    entered, and sets both fields to the empty string. *)
Theorem handleSubmit_guards_onAddPost (st : FormAddPost.State) :
  let run := FormAddPost.handleSubmit st in
  (FormAddPost.title st = "" ∨ FormAddPost.body st = "" →
   FormAddPost.onAddPost_calls run = []
   ∧ FormAddPost.form_after run st = st
   ∧ ∀ store, FormAddPost.store_after run store = store)
  ∧ (FormAddPost.title st ≠ "" ∧ FormAddPost.body st ≠ "" →
     FormAddPost.onAddPost_calls run
     = [post_of (FormAddPost.title st) (FormAddPost.body st)]
     ∧ length (FormAddPost.onAddPost_calls run) = 1
     ∧ FormAddPost.form_after run st = FormAddPost.mkState "" ""
     ∧ ∀ store,
         FormAddPost.store_after run store
         = handleAddPost
             (post_of (FormAddPost.title st) (FormAddPost.body st)) store).
Proof.
  destruct st as [t b]. unfold FormAddPost.handleSubmit. simpl. split.
  - intros [-> | ->]; simpl; [by rewrite orb_true_r | done].
  - intros [Ht Hb]. destruct t; [done |]. destruct b; [done |]. done.
Qed.

Lemma handleSubmit_guards_onAddPost_witness :
  FormAddPost.onAddPost_calls
    (FormAddPost.handleSubmit (FormAddPost.mkState "" "B")) = []
  ∧ FormAddPost.onAddPost_calls
      (FormAddPost.handleSubmit (FormAddPost.mkState "A" "B"))
    = [post_of "A" "B"].
Proof.
  split.
  - apply (handleSubmit_guards_onAddPost (FormAddPost.mkState "" "B")).
    by left.
  - apply (handleSubmit_guards_onAddPost (FormAddPost.mkState "A" "B")).
    by split.
Defined.

(** * Further properties of the code *)

(** ** Searching *)

(** For every query, the empty one included, [searchedPosts] is the filter
    by the lowered test. *)
Lemma searchedPosts_filter `{Unicode : UnicodeData} (l : list Post)
    (q : JsString) :
  searchedPosts l q = filter (lowered_visible q) l.
Proof.
  destruct (decide (0 < length q)) as [Hq | Hq].
  - by apply searchedPosts_nonempty.
  - destruct q; [|simpl in Hq; lia].
    transitivity l; [reflexivity |].
    induction l as [|p l IH]; [done |].
    rewrite filter_cons_True; [by f_equal |].
    apply occurs_lowered_empty.
Qed.

Lemma filter_sublist_impl {A} (P Q : A → Prop) `{!∀ x, Decision (P x)}
    `{!∀ x, Decision (Q x)} (l : list A) :
  (∀ x, P x → Q x) → filter P l `sublist_of` filter Q l.
Proof.
  intros HPQ. induction l as [|x l IH]; [done |].
  rewrite !filter_cons. destruct (decide (P x)) as [HP | HP].
  - rewrite decide_True by auto. by apply sublist_skip.
  - destruct (decide (Q x)); [by apply sublist_cons | done].
Qed.

Lemma ascii_string_same_letter (u q : JsString) :
  ascii_string u → Forall2 same_letter u q → ascii_string q.
Proof.
  intros Hu Huq. induction Huq as [|a b u q Hab Huq IH]; [done |].
  apply Forall_cons in Hu as [Ha Hu]. constructor; [|by apply IH].
  destruct Hab as [-> | [[? ->] | [? ->]]]; lia.
Qed.

(** Narrowing.  When the lowered query [q] is a stretch of the lowered
    query [q'], the posts found for [q'] are a sublist of the posts found
    for [q], and [Results] counts no more of them.  That is so when [q'] is
    ASCII and has [q] in it up to the case of the letters A .. Z, as when
    the user types further ASCII characters before or after [q]. *)
Theorem searchedPosts_narrowing `{Unicode : UnicodeData} (l : list Post)
    (q q' : JsString) :
  occurs_lowered q q'
  ∨ (ascii_string q' ∧ occurs_up_to_letter_case q q') →
  searchedPosts l q' `sublist_of` searchedPosts l q
  ∧ length (searchedPosts l q') ≤ length (searchedPosts l q).
Proof.
  intros Hq.
  assert (occurs_lowered q q') as Hlow.
  { destruct Hq as [Hq | [Ha Hq]]; [done |].
    apply occurs_lowered_ascii; [done | | done].
    destruct Hq as (before & u & after & -> & Hu).
    apply Forall_app in Ha as [_ [Hu' _]%Forall_app].
    by eapply ascii_string_same_letter. }
  assert (searchedPosts l q' `sublist_of` searchedPosts l q) as Hsub.
  { rewrite !searchedPosts_filter. apply filter_sublist_impl.
    intros p. by apply occurs_lowered_trans. }
  split; [done | by apply sublist_length].
Qed.

Lemma searchedPosts_narrowing_witness :
  let l := [post_of "Edge" "Case"; post_of "Wedge" "x"; post_of "a" "b"] in
  searchedPosts (Unicode := rows_left_alone) l "EDGE c"
    `sublist_of` searchedPosts (Unicode := rows_left_alone) l "dge".
Proof.
  intros l.
  apply (searchedPosts_narrowing (Unicode := rows_left_alone) l "dge"
           "EDGE c").
  right. split.
  - apply Forall_forall. intros c Hc.
    repeat (apply elem_of_cons in Hc as [-> | Hc]; [done |]).
    by apply elem_of_nil in Hc.
  - exists (js "E"), (js "DGE"), (js " c"). split; [done |].
    repeat (constructor; [right; left; by vm_compute |]). constructor.
Defined.

(** Adding under a search.  After [handleAddPost] the posts handed out are
    those handed out before, with the new post in front when its lowered
    text has the lowered query of the moment in it (every post has the
    empty query) and unchanged when it has not; [Results] counts one more
    or the same. *)
Theorem searchedPosts_after_handleAddPost `{Unicode : UnicodeData}
    (st : Store) (p : Post) :
  let before := ctx_posts (PostProvider_value st) in
  let after := ctx_posts (PostProvider_value (handleAddPost p st)) in
  after = (if decide (lowered_visible (searchQuery st) p)
           then p :: before else before)
  ∧ length after = (if decide (lowered_visible (searchQuery st) p)
                    then S (length before) else length before)
  ∧ (searchQuery st = "" → after = p :: before).
Proof.
  destruct st as [l q]. simpl. rewrite !searchedPosts_filter, filter_cons.
  split; [done |]. split; [by case_decide |].
  intros ->. rewrite decide_True; [done |]. apply occurs_lowered_empty.
Qed.

Lemma searchedPosts_after_handleAddPost_witness :
  let st := mkStore [post_of "Edge" "Case"] "" in
  ctx_posts (PostProvider_value (Unicode := rows_left_alone)
               (handleAddPost (mkPost None None) st))
  = mkPost None None
    :: ctx_posts (PostProvider_value (Unicode := rows_left_alone) st).
Proof.
  intros st.
  by apply (searchedPosts_after_handleAddPost (Unicode := rows_left_alone)
              st (mkPost None None)).
Defined.

(** A query whose lowered form is a stretch of the lowered title alone or
    of the lowered body alone finds the post: the space that joins title
    and body keeps the lowering of the two apart and loses no match. *)
Theorem searchedPosts_title_or_body `{Unicode : UnicodeData}
    (l : list Post) (q t b : JsString) :
  occurs_lowered q t ∨ occurs_lowered q b →
  post_of t b ∈ l → post_of t b ∈ searchedPosts l q.
Proof.
  intros Hq Hl. rewrite searchedPosts_filter, list_elem_of_filter.
  split; [|done].
  unfold lowered_visible, occurs_lowered, title_space_body, post_of.
  cbn [title body Js.toString]. rewrite toLowerCase_space.
  destruct Hq as [(x & y & ->) | (x & y & ->)].
  - exists x, (y ++ js " " ++ Js.toLowerCase b).
    by rewrite <- !(assoc_L (++)).
  - exists (Js.toLowerCase t ++ js " " ++ x), y.
    by rewrite <- !(assoc_L (++)).
Qed.

Lemma searchedPosts_title_or_body_witness :
  post_of "Edge" "Case"
  ∈ searchedPosts (Unicode := rows_left_alone)
      [post_of "a" "b"; post_of "Edge" "Case"] "cAs".
Proof.
  apply searchedPosts_title_or_body.
  - right. by exists [], (js "e").
  - apply list_elem_of_further, list_elem_of_here.
Defined.

(** The query is not trimmed: a query of one space is looked for like any
    other, and it finds every post, since the searched text of each has
    the space that joins title and body. *)
Theorem searchedPosts_space_query `{Unicode : UnicodeData} (l : list Post) :
  searchedPosts l " " = l.
Proof.
  rewrite searchedPosts_filter.
  induction l as [|p l IH]; [done |].
  rewrite filter_cons_True; [by f_equal |].
  unfold lowered_visible, occurs_lowered, title_space_body.
  rewrite toLowerCase_space.
  by exists (Js.toLowerCase (Js.toString (title p))),
    (Js.toLowerCase (Js.toString (body p))).
Qed.

Lemma undefined_lowered `{Unicode : UnicodeData} (q : JsString) :
  occurs_ignoring_case q "undefined" → occurs_lowered q "undefined".
Proof.
  intros (x & u & y & Hxuy & Hu).
  assert (ascii_string (js "undefined")) as Ha.
  { apply Forall_forall. intros c Hc.
    repeat (apply elem_of_cons in Hc as [-> | Hc]; [done |]).
    by apply elem_of_nil in Hc. }
  assert (Js.lowercaseMapping <$> js "undefined" = js "undefined") as Hl
    by by vm_compute.
  unfold occurs_lowered. rewrite <- Hu, (toLowerCase_ascii _ Ha).
  rewrite Hxuy in Ha. apply Forall_app in Ha as [_ [Hua _]%Forall_app].
  rewrite (toLowerCase_ascii _ Hua).
  exists (Js.lowercaseMapping <$> x), (Js.lowercaseMapping <$> y).
  by rewrite Hxuy, !fmap_app.
Qed.

(** A post that lacks its title or its body is searched by the word
    undefined in place of what is missing: if it is in [posts], every query
    that occurs in that word finds it. *)
Theorem searchedPosts_missing_property `{Unicode : UnicodeData}
    (l : list Post) (p : Post) (q : JsString) :
  title p = None ∨ body p = None →
  occurs_ignoring_case q "undefined" →
  p ∈ l → p ∈ searchedPosts l q.
Proof.
  intros Hp Hq%undefined_lowered Hl.
  rewrite searchedPosts_filter, list_elem_of_filter.
  split; [|done]. unfold lowered_visible, occurs_lowered, title_space_body.
  rewrite toLowerCase_space. destruct Hq as (x & y & Hxy).
  destruct Hp as [-> | ->]; simpl Js.toString; rewrite Hxy.
  - exists x, (y ++ js " " ++ Js.toLowerCase (Js.toString (body p))).
    by rewrite <- !(assoc_L (++)).
  - exists (Js.toLowerCase (Js.toString (title p)) ++ js " " ++ x), y.
    by rewrite <- !(assoc_L (++)).
Qed.

Lemma searchedPosts_missing_property_witness :
  mkPost None (Some (js "Case"))
  ∈ searchedPosts (Unicode := rows_left_alone)
      [post_of "a" "b"; mkPost None (Some (js "Case"))] "UNDEF".
Proof.
  apply searchedPosts_missing_property.
  - by left.
  - by exists [], (js "undef"), (js "ined").
  - apply list_elem_of_further, list_elem_of_here.
Defined.

(** ** The form *)

Lemma handleSubmit_posts_in_form (st : FormAddPost.State) (p : Post) :
  p ∈ FormAddPost.onAddPost_calls (FormAddPost.handleSubmit st) →
  p = post_of (FormAddPost.title st) (FormAddPost.body st)
  ∧ FormAddPost.title st ≠ "" ∧ FormAddPost.body st ≠ "".
Proof.
  destruct st as [t b]. unfold FormAddPost.handleSubmit. simpl.
  destruct b as [|cb b], t as [|ct t]; simpl;
    try (by intros ?%elem_of_nil).
  by intros ->%list_elem_of_singleton.
Qed.

(** The form hands [onAddPost] nothing but a post made of the title and the
    body entered, both present and neither empty: no malformed post comes
    from the form. *)
Theorem handleSubmit_posts_well_formed (st : FormAddPost.State) (p : Post) :
  p ∈ FormAddPost.onAddPost_calls (FormAddPost.handleSubmit st) →
  p = post_of (FormAddPost.title st) (FormAddPost.body st)
  ∧ FormAddPost.title st ≠ "" ∧ FormAddPost.body st ≠ ""
  ∧ ¬ malformed p.
Proof.
  intros (-> & Ht & Hb)%handleSubmit_posts_in_form.
  repeat split; try done.
  intros [H | [H | [H | H]]]; simpl in H; congruence.
Qed.

Lemma handleSubmit_posts_well_formed_witness :
  ¬ malformed (post_of "A" "B").
Proof.
  apply (handleSubmit_posts_well_formed (FormAddPost.mkState "A" "B")).
  apply list_elem_of_here.
Defined.

(** ** Events of the application *)

Lemma toggle_elem_of (token : string) (l : list string) :
  token ∈ DOMTokenList.toggle token l ↔ token ∉ l.
Proof.
  unfold DOMTokenList.toggle. case_decide as H.
  - rewrite list_elem_of_filter. tauto.
  - rewrite elem_of_app, list_elem_of_singleton. tauto.
Qed.

Lemma toggle_elem_of_other (t token : string) (l : list string) :
  t ≠ token → t ∈ DOMTokenList.toggle token l ↔ t ∈ l.
Proof.
  intros Ht. unfold DOMTokenList.toggle. case_decide as H.
  - rewrite list_elem_of_filter. tauto.
  - rewrite elem_of_app, list_elem_of_singleton. tauto.
Qed.

Lemma handle_classList (ev : App.Event) (st st' : App.State) :
  App.handle ev st = Some st' → App.classList st' = App.classList st.
Proof.
  destruct ev; simpl; try (by intros [= <-]).
  destruct (App.Archive_items st !! i); simpl; [by intros [= <-] | done].
Qed.

Lemma handle_archive (ev : App.Event) (st st' : App.State) :
  App.handle ev st = Some st' →
  App.archive st' = App.archive st
  ∧ App.showArchive st'
    = match ev with
      | App.ClickShowArchive => negb (App.showArchive st)
      | _ => App.showArchive st
      end.
Proof.
  destruct ev; simpl; try (by intros [= <-]).
  destruct (App.Archive_items st !! i); simpl; [by intros [= <-] | done].
Qed.

Lemma dispatch_handle (ev : App.Event) (st st' : App.State) :
  App.dispatch ev st = Some st' ↔
  ∃ st1, App.handle ev st = Some st1
         ∧ st' = App.fakeDarkMode_effect (Some (App.isFakeDark st)) st1.
Proof.
  unfold App.dispatch. destruct (App.handle ev st) as [st1|]; simpl.
  - split; [intros [= <-]; by exists st1 | by intros (? & [= <-] & ->)].
  - split; [done | by intros (? & ? & _)].
Qed.

Lemma handle_isFakeDark (ev : App.Event) (st st' : App.State) :
  App.handle ev st = Some st' →
  App.isFakeDark st'
  = (if decide (ev = App.ClickFakeDarkMode) then negb (App.isFakeDark st)
     else App.isFakeDark st).
Proof.
  destruct ev; simpl; try (by intros [= <-]).
  destruct (App.Archive_items st !! i); simpl; [by intros [= <-] | done].
Qed.

(** What one event does to the flag and to the class list. *)
Lemma dispatch_fakeDarkMode (ev : App.Event) (st st' : App.State) :
  App.dispatch ev st = Some st' →
  App.isFakeDark st'
  = (if decide (ev = App.ClickFakeDarkMode) then negb (App.isFakeDark st)
     else App.isFakeDark st)
  ∧ App.classList st'
    = (if decide (ev = App.ClickFakeDarkMode)
       then DOMTokenList.toggle "fake-dark-mode" (App.classList st)
       else App.classList st).
Proof.
  intros (st1 & H1 & ->)%dispatch_handle.
  pose proof (handle_classList _ _ _ H1) as Hc.
  pose proof (handle_isFakeDark _ _ _ H1) as Hf.
  unfold App.fakeDarkMode_effect, useEffect. simpl. rewrite Hc, Hf.
  split; [done |]. case_decide as Hev.
  - rewrite decide_False; [done |]. by destruct (App.isFakeDark st).
  - by rewrite decide_True.
Qed.

Lemma dark_mode_clicks_cons (ev : App.Event) (evs : list App.Event) :
  dark_mode_clicks (ev :: evs)
  = (if decide (ev = App.ClickFakeDarkMode) then S (dark_mode_clicks evs)
     else dark_mode_clicks evs).
Proof.
  unfold dark_mode_clicks. rewrite filter_cons. by case_decide.
Qed.

(** Induction along a sequence of events, for a relation between the state
    at the start and the state at the end. *)
Lemma run_rel_ind (R : App.State → App.State → Prop) :
  (∀ st, R st st) →
  (∀ ev st st1 st', App.dispatch ev st = Some st1 → R st1 st' → R st st') →
  ∀ evs st st', App.run evs st = Some st' → R st st'.
Proof.
  intros Hrefl Hstep evs. induction evs as [|ev evs IH]; intros st st'; simpl.
  - intros [= <-]. apply Hrefl.
  - destruct (App.dispatch ev st) as [st1|] eqn:H1; simpl; [|done].
    intros H. eapply Hstep; [exact H1 | by apply IH].
Qed.

Section MountProperties.

Variable Rng : Type.
Variables adjective noun phrase : Rng → JsString * Rng.

Local Abbreviation PostProvider_state :=
  (PostProvider_state Rng adjective noun phrase).
Local Abbreviation generated := (generated Rng adjective noun phrase).
Local Abbreviation mount := (App.mount Rng adjective noun phrase).

(** The state after the initial render, cell by cell. *)
Lemma mount_state (rng : Rng) (classList0 : list string) :
  (mount rng classList0).1
  = {| App.store := (PostProvider_state None rng).1;
       App.isFakeDark := false;
       App.form := FormAddPost.mkState "" "";
       App.archive := generated 10000 (PostProvider_state None rng).2;
       App.showArchive := false;
       App.classList := DOMTokenList.toggle "fake-dark-mode" classList0 |}.
Proof.
  unfold mount, App.mount, useState.
  destruct (PostProvider_state None rng) as [store0 rng1].
  rewrite <- Array_from_generated. cbn [fst snd].
  by destruct (Array_from Rng 10000 _ rng1).
Qed.

End MountProperties.

(** Dark mode.  The dark-mode button is the one event that changes
    [isFakeDark], and each click negates it: after a sequence of events the
    flag is as at the start when the clicks among them are even in number,
    and negated when they are odd.  The class fake-dark-mode of the document
    element changes with the flag: it is there at the end as at the start
    for an even number of clicks and the other way round for an odd one, so
    that it changes exactly when [isFakeDark] does.  Without a click the
    class list is the one of the start: searching, adding, clearing and the
    archive leave it alone.  No event touches another class.  Since the
    effect runs once at the initial render, with the flag off, from then on
    the class is there with the flag off exactly when the document came
    without it. *)
Theorem fakeDarkMode_follows_isFakeDark (evs : list App.Event)
    (st st' : App.State) :
  App.run evs st = Some st' →
  App.isFakeDark st'
  = (if Nat.even (dark_mode_clicks evs) then App.isFakeDark st
     else negb (App.isFakeDark st))
  ∧ ("fake-dark-mode" ∈ App.classList st'
     ↔ ("fake-dark-mode" ∈ App.classList st
        ↔ Nat.even (dark_mode_clicks evs) = true))
  ∧ (dark_mode_clicks evs = 0 → App.classList st' = App.classList st)
  ∧ ("fake-dark-mode" ∈ App.classList st'
     ↔ ("fake-dark-mode" ∈ App.classList st
        ↔ App.isFakeDark st' = App.isFakeDark st))
  ∧ (∀ t, t ≠ "fake-dark-mode" →
          t ∈ App.classList st' ↔ t ∈ App.classList st)
  ∧ (∀ Rng adjective noun phrase rng classList0,
       st = (App.mount Rng adjective noun phrase rng classList0).1 →
       "fake-dark-mode" ∈ App.classList st'
       ↔ ("fake-dark-mode" ∈ classList0 ↔ App.isFakeDark st' = true)).
Proof.
  intros Hrun.
  assert (App.isFakeDark st'
          = (if Nat.even (dark_mode_clicks evs) then App.isFakeDark st
             else negb (App.isFakeDark st))
          ∧ ("fake-dark-mode" ∈ App.classList st'
             ↔ ("fake-dark-mode" ∈ App.classList st
                ↔ Nat.even (dark_mode_clicks evs) = true))
          ∧ (dark_mode_clicks evs = 0 →
             App.classList st' = App.classList st)
          ∧ (∀ t, t ≠ "fake-dark-mode" →
                  t ∈ App.classList st' ↔ t ∈ App.classList st))
    as (Hflag & Hclass & Hnone & Hother).
  { revert st Hrun. induction evs as [|ev evs IH]; intros st; cbn [App.run].
    - intros [= <-]. repeat split; try done; tauto.
    - destruct (App.dispatch ev st) as [st1|] eqn:H1;
        cbn [mbind option_bind]; [|done].
      intros Hrun. destruct (IH _ Hrun) as (IHf & IHc & IHn & IHo).
      destruct (dispatch_fakeDarkMode _ _ _ H1) as [Df Dc].
      rewrite dark_mode_clicks_cons.
      destruct (decide (ev = App.ClickFakeDarkMode)) as [Hev | Hev].
      + rewrite Nat.even_succ, <- Nat.negb_even.
        split; [|split; [|split]].
        * rewrite IHf, Df.
          by destruct (Nat.even (dark_mode_clicks evs)),
            (App.isFakeDark st).
        * rewrite IHc, Dc, toggle_elem_of.
          destruct (decide ("fake-dark-mode" ∈ App.classList st)),
            (Nat.even (dark_mode_clicks evs)); simpl; intuition congruence.
        * done.
        * intros t Ht. rewrite (IHo t Ht), Dc.
          by apply toggle_elem_of_other.
      + split; [|split; [|split]].
        * by rewrite IHf, Df.
        * by rewrite IHc, Dc.
        * intros Hz. by rewrite (IHn Hz), Dc.
        * intros t Ht. by rewrite (IHo t Ht), Dc. }
  split; [done |]. split; [done |]. split; [done |].
  assert ("fake-dark-mode" ∈ App.classList st'
          ↔ ("fake-dark-mode" ∈ App.classList st
             ↔ App.isFakeDark st' = App.isFakeDark st)) as Hlock.
  { rewrite Hclass, Hflag.
    destruct (Nat.even (dark_mode_clicks evs)), (App.isFakeDark st);
      simpl; intuition congruence. }
  split; [done |]. split; [done |].
  intros Rng adjective noun phrase rng classList0 Hst.
  rewrite Hlock, Hst, mount_state. simpl. rewrite toggle_elem_of.
  destruct (decide ("fake-dark-mode" ∈ classList0)),
    (App.isFakeDark st'); intuition congruence.
Qed.

Lemma fakeDarkMode_follows_isFakeDark_witness :
  let st := App.mkState (mkStore [post_of "a" "b"] "")
              false (FormAddPost.mkState "" "") [] false
              ["fake-dark-mode"] in
  let st' := App.mkState (mkStore [] "a")
               true (FormAddPost.mkState "" "") [] false [] in
  App.isFakeDark st' = negb (App.isFakeDark st)
  ∧ ("fake-dark-mode" ∈ App.classList st'
     ↔ ("fake-dark-mode" ∈ App.classList st ↔ false = true)).
Proof.
  intros st st'.
  destruct (fakeDarkMode_follows_isFakeDark
              [App.ChangeSearch "a"; App.ClickFakeDarkMode;
               App.ClickClearPosts] st st' eq_refl)
    as (Hflag & Hclass & _).
  by split.
Defined.

Lemma effect_same_flag (st st1 : App.State) :
  App.isFakeDark st1 = App.isFakeDark st →
  App.fakeDarkMode_effect (Some (App.isFakeDark st)) st1 = st1.
Proof.
  intros H. unfold App.fakeDarkMode_effect, App.set_classList, useEffect.
  rewrite decide_True by done. by destruct st1.
Qed.

Lemma handleSubmit_store_after (f : FormAddPost.State) (s : Store) :
  posts (FormAddPost.store_after (FormAddPost.handleSubmit f) s)
  = FormAddPost.onAddPost_calls (FormAddPost.handleSubmit f) ++ posts s
  ∧ searchQuery (FormAddPost.store_after (FormAddPost.handleSubmit f) s)
    = searchQuery s
  ∧ length (FormAddPost.onAddPost_calls (FormAddPost.handleSubmit f)) ≤ 1.
Proof.
  destruct f as [t b]. unfold FormAddPost.handleSubmit. simpl.
  destruct b, t; simpl; repeat split; lia.
Qed.

(** What an event does to the posts of the store. *)
Lemma dispatch_posts (ev : App.Event) (st st1 : App.State) :
  App.dispatch ev st = Some st1 →
  match ev with
  | App.ClickClearPosts => posts (App.store st1) = []
  | App.SubmitForm =>
      posts (App.store st1)
      = FormAddPost.onAddPost_calls (FormAddPost.handleSubmit (App.form st))
          ++ posts (App.store st)
  | App.ClickAddAsNewPost i =>
      ∃ post, App.Archive_items st !! i = Some post
              ∧ posts (App.store st1) = post :: posts (App.store st)
  | _ => posts (App.store st1) = posts (App.store st)
  end.
Proof.
  intros (st0 & H0 & ->)%dispatch_handle.
  destruct ev; simpl in H0; try (injection H0 as <-; simpl; done).
  - injection H0 as <-. simpl. apply handleSubmit_store_after.
  - destruct (App.Archive_items st !! i) as [post|]; simpl in H0; [|done].
    injection H0 as <-. by exists post.
Qed.

Lemma dispatch_archive (ev : App.Event) (st st1 : App.State) :
  App.dispatch ev st = Some st1 → App.archive st1 = App.archive st.
Proof.
  intros (st0 & H0 & ->)%dispatch_handle.
  destruct (handle_archive _ _ _ H0) as [H _]. by rewrite <- H.
Qed.

Lemma Archive_items_lookup (st : App.State) (i : nat) (post : Post) :
  App.Archive_items st !! i = Some post ↔
  App.showArchive st = true ∧ App.archive st !! i = Some post.
Proof.
  unfold App.Archive_items. destruct (App.showArchive st).
  - split; [by intros ? | by intros [_ ?]].
  - rewrite lookup_nil. split; [done | by intros [? _]].
Qed.

(** The archive is a pool that is read and never written: whatever the
    events, it holds the posts it was created with, which after the initial
    render are 10000 generated posts, drawn after the 30 of the store. *)
Theorem archive_read_only (evs : list App.Event) (st st' : App.State) :
  App.run evs st = Some st' →
  App.archive st' = App.archive st
  ∧ (∀ Rng adjective noun phrase rng classList0,
       st = (App.mount Rng adjective noun phrase rng classList0).1 →
       App.archive st'
       = generated Rng adjective noun phrase 10000
           (PostProvider_state Rng adjective noun phrase None rng).2
       ∧ length (App.archive st') = 10000).
Proof.
  intros Hrun. assert (App.archive st' = App.archive st) as H.
  { revert evs st st' Hrun. apply run_rel_ind; [done |].
    intros ev st st1 st' Hd ->. by apply (dispatch_archive ev). }
  split; [done |]. intros Rng adjective noun phrase rng classList0 ->.
  rewrite H, mount_state. cbn [App.archive].
  split; [done | apply generated_length].
Qed.

Lemma archive_read_only_witness :
  let st := App.mkState (mkStore [] "") false (FormAddPost.mkState "" "")
              [post_of "a" "b"] false [] in
  let st' := App.mkState (mkStore [] "") false (FormAddPost.mkState "" "")
               [post_of "a" "b"] true [] in
  App.archive st' = App.archive st.
Proof.
  intros st st'.
  apply (archive_read_only
           [App.ClickShowArchive; App.ClickAddAsNewPost 0;
            App.ClickClearPosts] st st').
  reflexivity.
Defined.

(** The Add as new post button.  The event has a handler exactly when the
    archive is shown and the item exists; it then puts that archive post in
    front of the posts of the store and changes nothing else, the archive
    included, so that the same post can be added again. *)
Theorem ClickAddAsNewPost_copies (st : App.State) (i : nat) :
  (is_Some (App.dispatch (App.ClickAddAsNewPost i) st)
   ↔ App.showArchive st = true ∧ i < length (App.archive st))
  ∧ (∀ st', App.dispatch (App.ClickAddAsNewPost i) st = Some st' →
            ∃ post, App.archive st !! i = Some post
                    ∧ st' = App.set_store (handleAddPost post) st
                    ∧ posts (App.store st') = post :: posts (App.store st)
                    ∧ App.dispatch (App.ClickAddAsNewPost i) st'
                      = Some (App.set_store (handleAddPost post) st')).
Proof.
  assert (∀ st post, App.archive st !! i = Some post →
                     App.showArchive st = true →
                     App.dispatch (App.ClickAddAsNewPost i) st
                     = Some (App.set_store (handleAddPost post) st)) as Hadd.
  { intros s post Hi Hs. unfold App.dispatch. simpl.
    rewrite (proj2 (Archive_items_lookup s i post)) by done. simpl.
    f_equal. by apply effect_same_flag. }
  split.
  - split.
    + intros [st' (st0 & H0 & _)%dispatch_handle]. simpl in H0.
      destruct (App.Archive_items st !! i) as [post|] eqn:Hi; [|done].
      apply Archive_items_lookup in Hi as [Hs Hi].
      split; [done | by eapply lookup_lt_Some].
    + intros [Hs [post Hi]%lookup_lt_is_Some]. rewrite (Hadd _ post); eauto.
  - intros st' H. pose proof H as (st0 & H0 & _)%dispatch_handle.
    simpl in H0. destruct (App.Archive_items st !! i) as [post|] eqn:Hi;
      [|done].
    apply Archive_items_lookup in Hi as [Hs Hi]. exists post.
    rewrite (Hadd st post Hi Hs) in H. injection H as <-.
    split; [done |]. split; [done |]. split; [done |]. by apply Hadd.
Qed.

Lemma ClickAddAsNewPost_copies_witness :
  let st := App.mkState (mkStore [] "") false (FormAddPost.mkState "" "")
              [post_of "a" "b"; post_of "c" "d"] true [] in
  is_Some (App.dispatch (App.ClickAddAsNewPost 1) st).
Proof.
  intros st. apply (ClickAddAsNewPost_copies st 1). simpl. split; [done | lia].
Defined.

(** A second submit right after a submit changes nothing: the first one
    either was refused, and left the form as it was, or went through, and
    emptied the form.  So two submits in a row add one post at most. *)
Theorem SubmitForm_twice (st : App.State) :
  ∃ st1, App.dispatch App.SubmitForm st = Some st1
         ∧ App.dispatch App.SubmitForm st1 = Some st1
         ∧ App.run [App.SubmitForm; App.SubmitForm] st = Some st1
         ∧ length (posts (App.store st1)) ≤ S (length (posts (App.store st))).
Proof.
  assert (∀ s, App.dispatch App.SubmitForm s
               = Some (App.set_form
                         (FormAddPost.form_after
                            (FormAddPost.handleSubmit (App.form s)))
                         (App.set_store
                            (FormAddPost.store_after
                               (FormAddPost.handleSubmit (App.form s))) s)))
    as Hd.
  { intros s. unfold App.dispatch. simpl. f_equal. by apply effect_same_flag. }
  eexists. split; [apply Hd |].
  assert (App.dispatch App.SubmitForm
            (App.set_form
               (FormAddPost.form_after
                  (FormAddPost.handleSubmit (App.form st)))
               (App.set_store
                  (FormAddPost.store_after
                     (FormAddPost.handleSubmit (App.form st))) st))
          = Some (App.set_form
               (FormAddPost.form_after
                  (FormAddPost.handleSubmit (App.form st)))
               (App.set_store
                  (FormAddPost.store_after
                     (FormAddPost.handleSubmit (App.form st))) st))) as H2.
  { rewrite Hd. destruct st as [s d [t b] a sh cl], s as [l q].
    unfold FormAddPost.handleSubmit. simpl. by destruct b, t. }
  split; [exact H2 |]. split.
  - cbn [App.run]. rewrite Hd. cbn [mbind option_bind]. by rewrite H2.
  - cbn [App.store App.set_form App.set_store].
    destruct (handleSubmit_store_after (App.form st) (App.store st))
      as (-> & _ & Hlen).
    rewrite length_app. lia.
Qed.

(** Posts are added in front or cleared all at once, never edited,
    reordered or removed one by one.  After any sequence of events the posts
    of the store are some added posts followed by the posts of the start,
    or the added posts alone when Clear posts was clicked.  Each added post
    is an archive post or a post from the form, whose title and body are
    not empty, and there is at most one per event. *)
Theorem posts_only_added_or_cleared (evs : list App.Event)
    (st st' : App.State) :
  App.run evs st = Some st' →
  ∃ added,
    posts (App.store st')
    = added ++ (if decide (App.ClickClearPosts ∈ evs) then []
                else posts (App.store st))
    ∧ Forall (λ p, p ∈ App.archive st
                   ∨ ∃ t b, p = post_of t b ∧ t ≠ "" ∧ b ≠ "") added
    ∧ length added ≤ length evs.
Proof.
  revert st. induction evs as [|ev evs IH]; intros st; cbn [App.run].
  - intros [= <-]. exists []. rewrite decide_False by apply not_elem_of_nil.
    by repeat split.
  - destruct (App.dispatch ev st) as [st1|] eqn:H1; cbn [mbind option_bind];
      [|done].
    intros H. destruct (IH _ H) as (added & Hp & Hprov & Hlen).
    rewrite (dispatch_archive _ _ _ H1) in Hprov.
    pose proof (dispatch_posts _ _ _ H1) as Hev.
    destruct (decide (App.ClickClearPosts ∈ evs)) as [Hc | Hc].
    { exists added. rewrite decide_True by (apply elem_of_cons; by right).
      split; [done |]. split; [done | simpl; lia]. }
    destruct ev; try (exists added; rewrite decide_False
                        by (intros [?|?]%elem_of_cons; done);
                      rewrite Hp, Hev; split; [done |];
                      split; [done | simpl; lia]).
    + exists added. rewrite decide_True by (apply elem_of_cons; by left).
      rewrite Hp, Hev. split; [done |]. split; [done | simpl; lia].
    + exists (added
              ++ FormAddPost.onAddPost_calls
                   (FormAddPost.handleSubmit (App.form st))).
      rewrite decide_False by (intros [?|?]%elem_of_cons; done).
      rewrite Hp, Hev, (assoc_L (++)). split; [done |]. split.
      * apply Forall_app. split; [done |]. apply Forall_forall.
        intros p Hin. right.
        destruct (handleSubmit_posts_in_form _ _ Hin) as (-> & ? & ?).
        by eexists _, _.
      * rewrite length_app.
        pose proof (handleSubmit_store_after (App.form st) (App.store st))
          as (_ & _ & ?). cbn [length]. lia.
    + destruct Hev as (post & [_ Hi]%Archive_items_lookup & Hev).
      exists (added ++ [post]).
      rewrite decide_False by (intros [?|?]%elem_of_cons; done).
      rewrite Hp, Hev, <- (assoc_L (++)). split; [done |]. split.
      * apply Forall_app. split; [done |]. apply Forall_singleton. left.
        by eapply list_elem_of_lookup_2.
      * rewrite length_app. simpl. lia.
Qed.

Lemma posts_only_added_or_cleared_witness :
  let st := App.mkState (mkStore [post_of "x" "y"] "")
              false (FormAddPost.mkState "" "") [] false [] in
  let st' := App.mkState (mkStore [post_of "T" "B"; post_of "x" "y"] "")
               false (FormAddPost.mkState "" "") [] false [] in
  ∃ added, posts (App.store st') = added ++ posts (App.store st)
           ∧ length added ≤ 3.
Proof.
  intros st st'.
  destruct (posts_only_added_or_cleared
              [App.ChangeTitle "T"; App.ChangeBody "B"; App.SubmitForm]
              st st' eq_refl) as (added & H & _ & Hlen).
  by exists added.
Defined.

Section ReachableProperties.

Variable Rng : Type.
Variables adjective noun phrase : Rng → JsString * Rng.

Local Abbreviation createRandomPost :=
  (createRandomPost Rng adjective noun phrase).
Local Abbreviation generated := (generated Rng adjective noun phrase).
Local Abbreviation PostProvider_state :=
  (PostProvider_state Rng adjective noun phrase).
Local Abbreviation mount := (App.mount Rng adjective noun phrase).

Lemma createRandomPost_titled (rng : Rng) :
  ∃ t b, (createRandomPost rng).1 = post_of t b ∧ t ≠ "".
Proof.
  unfold createRandomPost.
  destruct (adjective rng) as [a r1], (noun r1) as [n r2],
    (phrase r2) as [ph r3].
  eexists _, _. split; [reflexivity |]. by destruct a.
Qed.

Lemma generated_titled (n : nat) (rng : Rng) :
  Forall (λ p, ∃ t b, p = post_of t b ∧ t ≠ "") (generated n rng).
Proof.
  revert rng. induction n as [|n IH]; intros rng; simpl; [done |].
  constructor; [apply createRandomPost_titled | apply IH].
Qed.

(** Whatever the user does after the initial render, every post of the
    store and of the archive has a title and a body, and the title is not
    empty: the searched text of a post never has the word undefined in
    place of a missing property. *)
Theorem mounted_posts_have_title_and_body (rng : Rng)
    (classList0 : list string) (evs : list App.Event) (st' : App.State) :
  App.run evs (mount rng classList0).1 = Some st' →
  Forall (λ p, ∃ t b, p = post_of t b ∧ t ≠ ""
                      ∧ title_space_body p = t ++ js " " ++ b)
    (posts (App.store st') ++ App.archive st').
Proof.
  intros Hrun.
  pose (ok := λ p : Post, ∃ t b, p = post_of t b ∧ t ≠ "").
  assert (∀ evs st st',
            App.run evs st = Some st' →
            Forall ok (posts (App.store st) ++ App.archive st) →
            Forall ok (posts (App.store st') ++ App.archive st')) as Hinv.
  { apply (run_rel_ind
             (λ st st', Forall ok (posts (App.store st) ++ App.archive st) →
                        Forall ok (posts (App.store st')
                                   ++ App.archive st'))); [done |].
    intros ev st st1 st2 Hd IH [Hp Ha]%Forall_app. apply IH.
    rewrite (dispatch_archive _ _ _ Hd). apply Forall_app. split; [|done].
    pose proof (dispatch_posts _ _ _ Hd) as Hev.
    destruct ev; try (by rewrite Hev).
    - rewrite Hev. apply Forall_app. split; [|done]. apply Forall_forall.
      intros p (-> & ? & ?)%handleSubmit_posts_in_form. by eexists _, _.
    - destruct Hev as (post & [_ Hi]%Archive_items_lookup & ->).
      constructor; [|done].
      by eapply Forall_lookup_1 in Ha. }
  assert (Forall ok (posts (App.store st') ++ App.archive st')) as H.
  { apply (Hinv _ _ _ Hrun). rewrite mount_state.
    cbn [App.store App.archive]. apply Forall_app.
    split; [|apply generated_titled].
    destruct (PostProvider_initial_store_posts Rng adjective noun phrase
                rng) as [-> _].
    apply generated_titled. }
  eapply Forall_impl; [exact H |]. intros p (t & b & -> & Ht).
  by exists t, b.
Qed.

End ReachableProperties.

Lemma mounted_posts_have_title_and_body_witness :
  let faker := λ n : nat, (js "hack", S n) in
  let st0 := (App.mount nat faker faker faker 0 []).1 in
  let st' := App.set_form (λ _, FormAddPost.mkState (js "") (js ""))
               (App.set_store (handleAddPost (post_of "T" "B")) st0) in
  Forall (λ p, ∃ t b, p = post_of t b ∧ t ≠ ""
                      ∧ title_space_body p = t ++ js " " ++ b)
    (posts (App.store st') ++ App.archive st').
Proof.
  intros faker st0 st'.
  apply (mounted_posts_have_title_and_body nat faker faker faker 0 []
           [App.ChangeTitle "T"; App.ChangeBody "B"; App.SubmitForm]).
  subst st'. fold st0. generalize st0. intros [s d f a sh cl].
  by destruct d.
Defined.

(** ** The memoized archive options *)

Lemma render_coherent (st : Store) (r : Memoized.Rendered) :
  (∀ n v, Memoized.memo_cell r = Some (n, v) →
          Memoized.Archive_props r = Some v
          ∧ ∀ l, length l = n → v = Memoized.archiveOptions_factory l) →
  Memoized.memo_cell (Memoized.render st r)
  = Some (length (posts st), Memoized.archiveOptions_factory (posts st))
  ∧ Memoized.Archive_props (Memoized.render st r)
    = Some (Memoized.archiveOptions_factory (posts st)).
Proof.
  intros Hr. unfold Memoized.render, useMemo.
  destruct (Memoized.memo_cell r) as [[n v]|] eqn:Hc; [|done].
  destruct (Hr n v eq_refl) as [Hp Hv]. case_decide as Hn; [|done].
  simpl. by rewrite Hp, (Hv (posts st) (eq_sym Hn)), Hn.
Qed.

Lemma renders_coherent (sts : list Store) :
  ∀ n v, Memoized.memo_cell (Memoized.renders sts Memoized.initial)
         = Some (n, v) →
         Memoized.Archive_props (Memoized.renders sts Memoized.initial)
         = Some v
         ∧ ∀ l, length l = n → v = Memoized.archiveOptions_factory l.
Proof.
  induction sts as [|st sts IH] using rev_ind; [done |].
  unfold Memoized.renders in *. rewrite foldl_snoc.
  destruct (render_coherent st _ IH) as [Hc Hp].
  intros n v. rewrite Hc, Hp. intros [= <- <-]. split; [done |].
  intros l Hl. unfold Memoized.archiveOptions_factory. by rewrite Hl.
Qed.

(** Memoization shows nothing stale.  After any sequence of renders of
    [App], the [archiveOptions] that [Archive] was last rendered with are
    those a fresh computation would give for the posts of the last render,
    although the factory is skipped, and [Archive] with it, whenever
    [posts.length] is as in the render before. *)
Theorem archiveOptions_never_stale (sts : list Store) (st : Store) :
  let r := Memoized.renders (sts ++ [st]) Memoized.initial in
  Memoized.Archive_props r
  = Some (Memoized.archiveOptions_factory (posts st))
  ∧ Memoized.memo_cell r
    = Some (length (posts st), Memoized.archiveOptions_factory (posts st))
  ∧ ∀ st2, Memoized.recomputed st2 r = false →
           Memoized.Archive_props (Memoized.render st2 r)
           = Memoized.Archive_props r
           ∧ Memoized.Archive_props r
             = Some (Memoized.archiveOptions_factory (posts st2)).
Proof.
  intros r.
  assert (Memoized.memo_cell r
          = Some (length (posts st),
                  Memoized.archiveOptions_factory (posts st))
          ∧ Memoized.Archive_props r
            = Some (Memoized.archiveOptions_factory (posts st))) as [Hc Hp].
  { unfold r, Memoized.renders. rewrite foldl_snoc.
    apply render_coherent, renders_coherent. }
  split; [done |]. split; [done |]. intros st2 Hskip.
  assert (Memoized.Archive_props (Memoized.render st2 r)
          = Some (Memoized.archiveOptions_factory (posts st2))) as H2.
  { apply render_coherent. rewrite Hc, Hp. intros n v [= <- <-].
    split; [done |]. intros l Hl.
    unfold Memoized.archiveOptions_factory. by rewrite Hl. }
  assert (Memoized.Archive_props (Memoized.render st2 r)
          = Memoized.Archive_props r) as Hsame.
  { revert Hskip. unfold Memoized.recomputed, Memoized.render.
    destruct (useMemo _ _ _) as [[v c] fresh]. simpl. by intros ->. }
  split; [done | by rewrite <- Hsame].
Qed.

Lemma archiveOptions_never_stale_witness :
  let st := mkStore [post_of "a" "b"] "" in
  let r := Memoized.renders [mkStore [] ""; st] Memoized.initial in
  Memoized.Archive_props r
  = Some (Memoized.archiveOptions_factory
            (posts (SearchPosts_onChange "a" st))).
Proof.
  intros st r.
  destruct (archiveOptions_never_stale [mkStore [] ""] st) as (_ & _ & H).
  by apply H.
Defined.

(** The factory of [archiveOptions] is called again exactly when the
    number of posts differs from that of the render before: never for a
    change of the search query, always after a post was added, and after
    Clear posts only if there were posts. *)
Theorem archiveOptions_recomputed (sts : list Store) (st st2 : Store) :
  let r := Memoized.renders (sts ++ [st]) Memoized.initial in
  (Memoized.recomputed st2 r = true ↔ length (posts st2) ≠ length (posts st))
  ∧ (∀ q, Memoized.recomputed (SearchPosts_onChange q st) r = false)
  ∧ (∀ p, Memoized.recomputed (handleAddPost p st) r = true)
  ∧ (Memoized.recomputed (handleClearPosts st) r = true ↔ posts st ≠ []).
Proof.
  intros r.
  assert (∀ s, Memoized.recomputed s r = true
               ↔ length (posts s) ≠ length (posts st)) as H.
  { intros s. unfold Memoized.recomputed, useMemo.
    replace (Memoized.memo_cell r)
      with (Some (length (posts st),
                  Memoized.archiveOptions_factory (posts st))).
    - case_decide; simpl; split; congruence.
    - symmetry. unfold r, Memoized.renders. rewrite foldl_snoc.
      apply render_coherent, renders_coherent. }
  split; [apply H |]. split; [|split].
  - intros q. apply not_true_is_false. rewrite H. simpl. by intros ?.
  - intros p. apply H. simpl. lia.
  - rewrite H. simpl. destruct (posts st); simpl; split; try done; lia.
Qed.

(** ** Sequences of events *)

Lemma dispatch_ChangeSearch (q : JsString) (st : App.State) :
  App.dispatch (App.ChangeSearch q) st
  = Some (App.set_store (λ s, mkStore (posts s) q) st).
Proof.
  unfold App.dispatch. simpl. f_equal. by rewrite effect_same_flag.
Qed.

Lemma run_ChangeSearch (qs : list JsString) (q : JsString)
    (st : App.State) :
  App.run (App.ChangeSearch <$> (qs ++ [q])) st
  = Some (App.set_store (λ s, mkStore (posts s) q) st).
Proof.
  revert st. induction qs as [|q0 qs IH]; intros st.
  - cbn [app fmap list_fmap App.run]. by rewrite dispatch_ChangeSearch.
  - cbn [app fmap list_fmap App.run]. rewrite dispatch_ChangeSearch.
    cbn [mbind option_bind]. fold (fmap (M := list) App.ChangeSearch).
    by rewrite IH.
Qed.

(** Searching loses nothing.  After any number of changes of the search
    box the store holds the posts it held and the last query typed, and all
    the rest of the state is as before; what is shown depends on the last
    query alone, and emptying the box shows every post again, in order. *)
Theorem search_leaves_posts `{Unicode : UnicodeData} (qs : list JsString)
    (q : JsString) (st : App.State) :
  App.run (App.ChangeSearch <$> (qs ++ [q])) st
  = Some (App.set_store (λ s, mkStore (posts s) q) st)
  ∧ (∀ st', App.run (App.ChangeSearch <$> (qs ++ [q])) st = Some st' →
            ctx_posts (PostProvider_value (App.store st'))
            = searchedPosts (posts (App.store st)) q)
  ∧ (∀ st', App.run (App.ChangeSearch <$> (qs ++ [js ""])) st = Some st' →
            ctx_posts (PostProvider_value (App.store st'))
            = posts (App.store st)).
Proof.
  split; [apply run_ChangeSearch |]. split.
  - intros st'. rewrite run_ChangeSearch. by intros [= <-].
  - intros st'. rewrite run_ChangeSearch. by intros [= <-].
Qed.

Lemma search_leaves_posts_witness :
  let st := App.mkState (mkStore [post_of "Edge" "Case"; post_of "a" "b"] "")
              false (FormAddPost.mkState "" "") [] false [] in
  ctx_posts
    (PostProvider_value (Unicode := rows_left_alone)
       (App.store (App.set_store (λ s, mkStore (posts s) "") st)))
  = posts (App.store st).
Proof.
  intros st.
  apply (search_leaves_posts (Unicode := rows_left_alone)
           [js "e"; js "ed"; js "edx"] "" st).
  reflexivity.
Defined.

(** Typing a title and a body, neither empty, and submitting puts the post
    made of the two in front of the posts of the store and empties the
    form; nothing else changes.  Whatever was in the fields before is
    overwritten by what was typed last. *)
Theorem typed_post_is_added (t b : JsString) (st : App.State) :
  t ≠ "" → b ≠ "" →
  App.run [App.ChangeTitle t; App.ChangeBody b; App.SubmitForm] st
  = Some (App.set_form (λ _, FormAddPost.mkState "" "")
            (App.set_store (handleAddPost (post_of t b)) st)).
Proof.
  intros Ht Hb. destruct st as [s d f a sh cl].
  unfold App.run, App.dispatch, App.handle. cbn [mbind option_bind].
  rewrite !effect_same_flag by done.
  unfold FormAddPost.handleSubmit. simpl.
  by destruct t, b.
Qed.

Lemma typed_post_is_added_witness :
  let st := App.mkState (mkStore [post_of "a" "b"] "zzz")
              false (FormAddPost.mkState "old" "") [] false [] in
  App.run [App.ChangeTitle "T"; App.ChangeBody "B"; App.SubmitForm] st
  = Some (App.mkState (mkStore [post_of "T" "B"; post_of "a" "b"] "zzz")
            false (FormAddPost.mkState "" "") [] false []).
Proof.
  intros st. by apply (typed_post_is_added "T" "B" st).
Defined.
